(** * A shallow embedding of the Robots (Bomberman) server and client core

    The development follows the C++ sources:
    - [server/types.h], [server/events.h], [server/messages.h]: wire types;
    - [server/game-manager.h]: the game manager ([GameManager]);
    - [server/server.h], [server/blocking-queue.h]: the shared server state
      ([Server]);
    - [client/types.h], [client/events.h]: the client's derived state and the
      application of events ([Client]).

    Fixed-width integers are integers of [Z] with the wrap-around written out;
    [std::map] and [std::set] are [gmap] and [gset], traversed in ascending
    key order; loops whose counter can wrap take an explicit iteration
    budget and return [None] when it is exhausted. *)

From Stdlib Require Import ZArith Lia String.
From stdpp Require Import gmap sorting list.

Local Open Scope Z_scope.

(** ** Fixed-width arithmetic *)

Definition wrap8 (z : Z) : Z := z mod 2 ^ 8.
Definition wrap16 (z : Z) : Z := z mod 2 ^ 16.
Definition wrap32 (z : Z) : Z := z mod 2 ^ 32.
Definition wrap64 (z : Z) : Z := z mod 2 ^ 64.

Definition UINT16_MAX : Z := 65535.

(** ** Domain types ([types.h]) *)

Inductive Direction := UP | RIGHT | DOWN | LEFT.

Definition getDelta (d : Direction) : Z * Z :=
  match d with
  | UP => (0, 1)
  | DOWN => (0, -1)
  | LEFT => (-1, 0)
  | RIGHT => (1, 0)
  end.

Record Position := mkPosition { pos_x : Z; pos_y : Z }.

#[global] Instance Position_eq_dec : EqDecision Position.
Proof. solve_decision. Defined.

#[global] Instance Position_countable : Countable Position.
Proof.
  refine (inj_countable' (λ p, (pos_x p, pos_y p))
            (λ xy, mkPosition (fst xy) (snd xy)) _).
  by intros [??].
Defined.

(** [Position::operator<=>] compares [(x, y)] lexicographically. *)
Definition Position_le (p q : Position) : Prop :=
  pos_x p < pos_x q ∨ (pos_x p = pos_x q ∧ pos_y p ≤ pos_y q).

#[global] Instance Position_le_dec : RelDecision Position_le.
Proof. intros p q. unfold Position_le. apply _. Defined.

(** [PlayerId], [BombId], [Score] and [client_id_t] wrap an unsigned integer;
    they are kept as [Z]. *)
Record Player := mkPlayer { player_name : string; player_address : string }.

Record Bomb := mkBomb { bomb_position : Position; bomb_timer_left : Z }.

(** What [std::map::operator[]] inserts for a missing key. *)
Definition PlayerId_default : Z := 0.
Definition Score_default : Z := 0.
Definition Position_default : Position := mkPosition 0 0.
Definition Bomb_default : Bomb := mkBomb Position_default 0.

(** ** Containers: [std::map] and [std::set] in iteration order *)

(** Keys of a [std::map] in the order a range-for visits them. *)
Definition map_keys {V} (m : gmap Z V) : list Z :=
  merge_sort Z.le (elements (dom m)).

(** Elements of a [std::set] in ascending order ([toList]). *)
Definition ids_toList (s : gset Z) : list Z := merge_sort Z.le (elements s).
Definition positions_toList (s : gset Position) : list Position :=
  merge_sort Position_le (elements s).

(** [m[k]]: the value stored under [k], inserting the default when [k] is
    missing; returns the value and the map as it is afterwards. *)
Definition map_index {V} (dflt : V) (k : Z) (m : gmap Z V) : V * gmap Z V :=
  match m !! k with
  | Some v => (v, m)
  | None => (dflt, <[k := dflt]> m)
  end.

(** ** Events and messages ([events.h], [messages.h]) *)

Inductive event_t :=
| BombPlaced (id : Z) (position : Position)
| BombExploded (id : Z) (robots_destroyed : list Z)
    (blocks_destroyed : list Position)
| PlayerMoved (id : Z) (position : Position)
| BlockPlaced (position : Position).

Inductive client_mess_t :=
| Join (name : string)
| PlaceBomb
| PlaceBlock
| Move (direction : Direction).

Record ServerParams := mkServerParams {
  bomb_timer : Z;
  players_count : Z;
  turn_duration : Z;
  explosion_radius : Z;
  initial_blocks : Z;
  game_length : Z;
  server_name : string;
  port : Z;
  seed : Z;
  size_x : Z;
  size_y : Z
}.

Record Hello_t := mkHello {
  hello_server_name : string;
  hello_players_count : Z;
  hello_size_x : Z;
  hello_size_y : Z;
  hello_game_length : Z;
  hello_explosion_radius : Z;
  hello_bomb_timer : Z
}.

Inductive server_mess_t :=
| Hello (h : Hello_t)
| AcceptedPlayer (id : Z) (player : Player)
| GameStarted (players : gmap Z Player)
| Turn (turn : Z) (events : list event_t)
| GameEnded (scores : gmap Z Z).

(** The test of the explosion loops, on [int]s:
    [0 <= x && x < size_x && 0 <= y && y < size_y]. *)
Definition on_board (sx sy x y : Z) : bool :=
  (0 <=? x) && (x <? sx) && (0 <=? y) && (y <? sy).

(** The direction tables [dx = {1, -1, 0, 0}], [dy = {0, 0, 1, -1}]. *)
Definition arm_deltas : list (Z * Z) := [(1, 0); (-1, 0); (0, 1); (0, -1)].

(** ** The explosion cross as section 4.5 of the specification words it

    For each direction, stepping outward from radius 0 to the explosion
    radius: an out-of-bounds point ends the arm and is left out, an in-bounds
    point is included, and a block ends the arm after being included. *)
Module Cross.

Fixpoint arm (steps : nat) (sx sy : Z) (blocks : gset Position)
    (bomb_pos : Position) (dx dy r : Z) : gset Position :=
  match steps with
  | O => ∅
  | S steps' =>
      let x := pos_x bomb_pos + dx * r in
      let y := pos_y bomb_pos + dy * r in
      if on_board sx sy x y then
        let pos := mkPosition x y in
        {[pos]} ∪ (if decide (pos ∈ blocks) then ∅
                   else arm steps' sx sy blocks bomb_pos dx dy (r + 1))
      else ∅
  end.

Definition cross (sx sy radius : Z) (blocks : gset Position)
    (bomb_pos : Position) : gset Position :=
  ⋃ (map (λ d, arm (Z.to_nat (radius + 1)) sx sy blocks bomb_pos
                 (fst d) (snd d) 0) arm_deltas).

End Cross.

(** ** The random source: [std::minstd_rand]

    [linear_congruential_engine<uint_fast32_t, 48271, 0, 2147483647>]: the
    seed is reduced modulo the modulus, a zero state is replaced by 1, and
    each call multiplies the state by 48271 modulo 2147483647 and returns the
    new state. *)
Definition minstd_modulus : Z := 2147483647.
Definition minstd_seed (s : Z) : Z :=
  if s mod minstd_modulus =? 0 then 1 else s mod minstd_modulus.
Definition minstd_next (state : Z) : Z := (48271 * state) mod minstd_modulus.

(** ** The game manager ([game-manager.h]) *)
Module GameManager.

Record GameState := mkGameState {
  bombs : gmap Z Bomb;
  blocks : gset Position;
  player_pos : gmap Z Position;
  scores : gmap Z Z;
  next_bomb_id : Z
}.

(** [GameState state;] at the top of every game. *)
Definition GameState_init : GameState := mkGameState ∅ ∅ ∅ ∅ 0.

Definition set_bombs (b : gmap Z Bomb) (s : GameState) : GameState :=
  mkGameState b (blocks s) (player_pos s) (scores s) (next_bomb_id s).
Definition set_blocks (b : gset Position) (s : GameState) : GameState :=
  mkGameState (bombs s) b (player_pos s) (scores s) (next_bomb_id s).
Definition set_player_pos (p : gmap Z Position) (s : GameState) : GameState :=
  mkGameState (bombs s) (blocks s) p (scores s) (next_bomb_id s).
Definition set_scores (sc : gmap Z Z) (s : GameState) : GameState :=
  mkGameState (bombs s) (blocks s) (player_pos s) sc (next_bomb_id s).
Definition set_next_bomb_id (n : Z) (s : GameState) : GameState :=
  mkGameState (bombs s) (blocks s) (player_pos s) (scores s) n.

Section manager.
Variable params : ServerParams.

(** One arm of [calcExplosion]: the loop
    [for (uint16_t r = 0; r <= params.explosion_radius; ++r)], entered at
    counter value [r] with the set built so far. The counter is 16 bits wide
    and wraps; [fuel] bounds the number of iterations. *)
Fixpoint calcExplosion_arm (fuel : nat) (bomb_pos : Position)
    (state : GameState) (dx dy r : Z) (affected_pos : gset Position)
    : option (gset Position) :=
  match fuel with
  | O => None
  | S fuel' =>
      if r <=? explosion_radius params then
        let x := pos_x bomb_pos + dx * r in
        let y := pos_y bomb_pos + dy * r in
        if on_board (size_x params) (size_y params) x y then
          let pos := mkPosition (wrap16 x) (wrap16 y) in
          let affected_pos' := {[pos]} ∪ affected_pos in
          if decide (pos ∈ blocks state) then Some affected_pos'
          else calcExplosion_arm fuel' bomb_pos state dx dy
                 (wrap16 (r + 1)) affected_pos'
        else calcExplosion_arm fuel' bomb_pos state dx dy
               (wrap16 (r + 1)) affected_pos
      else Some affected_pos
  end.

(** The outer loop over the four directions. *)
Fixpoint calcExplosion_arms (fuel : nat) (bomb_pos : Position)
    (state : GameState) (deltas : list (Z * Z))
    (affected_pos : gset Position) : option (gset Position) :=
  match deltas with
  | [] => Some affected_pos
  | (dx, dy) :: deltas' =>
      match calcExplosion_arm fuel bomb_pos state dx dy 0 affected_pos with
      | None => None
      | Some affected_pos' =>
          calcExplosion_arms fuel bomb_pos state deltas' affected_pos'
      end
  end.

Definition calcExplosion (fuel : nat) (bomb_pos : Position)
    (state : GameState) : option (gset Position) :=
  calcExplosion_arms fuel bomb_pos state arm_deltas ∅.

Definition calcDestroyedRobots (positions_affected : gset Position)
    (state : GameState) : gset Z :=
  foldl (λ robots_destroyed player_id,
           match player_pos state !! player_id with
           | Some position =>
               if decide (position ∈ positions_affected)
               then {[player_id]} ∪ robots_destroyed
               else robots_destroyed
           | None => robots_destroyed
           end)
        ∅ (map_keys (player_pos state)).

Definition calcDestroyedBlocks (positions_affected : gset Position)
    (state : GameState) : gset Position :=
  foldl (λ blocks_destroyed pos,
           if decide (pos ∈ blocks state)
           then {[pos]} ∪ blocks_destroyed
           else blocks_destroyed)
        ∅ (positions_toList positions_affected).

(** [state.bombs.at(id)] throws for a missing id; here: [None]. The other
    [None] is an explosion loop that does not come back within [fuel]. *)
Definition calcExplosionResult (fuel : nat) (id : Z) (state : GameState)
    : option (gset Z * gset Position) :=
  match bombs state !! id with
  | None => None
  | Some bomb =>
      match calcExplosion fuel (bomb_position bomb) state with
      | None => None
      | Some affected_positions =>
          Some (calcDestroyedRobots affected_positions state,
                calcDestroyedBlocks affected_positions state)
      end
  end.

(** The accumulators of [updateBombs]. *)
Record Exploding := mkExploding {
  ex_state : GameState;
  ex_events : list event_t;
  robots_destroyed_total : gset Z;
  blocks_destroyed_total : gset Position;
  bombs_exploded : gset Z
}.

(** Body of the loop over [state.bombs]. *)
Definition updateBombs_step (fuel : nat) (acc : option Exploding)
    (bomb_id : Z) : option Exploding :=
  match acc with
  | None => None
  | Some a =>
      match bombs (ex_state a) !! bomb_id with
      | None => Some a
      | Some bomb =>
          if 1 <? bomb_timer_left bomb then
            Some (mkExploding
                    (set_bombs
                       (<[bomb_id := mkBomb (bomb_position bomb)
                                       (wrap16 (bomb_timer_left bomb - 1))]>
                          (bombs (ex_state a)))
                       (ex_state a))
                    (ex_events a) (robots_destroyed_total a)
                    (blocks_destroyed_total a) (bombs_exploded a))
          else
            match calcExplosionResult fuel bomb_id (ex_state a) with
            | None => None
            | Some (robots_destroyed, blocks_destroyed) =>
                Some (mkExploding (ex_state a)
                        (ex_events a ++
                           [BombExploded bomb_id
                              (ids_toList robots_destroyed)
                              (positions_toList blocks_destroyed)])
                        (robots_destroyed ∪ robots_destroyed_total a)
                        (blocks_destroyed ∪ blocks_destroyed_total a)
                        ({[bomb_id]} ∪ bombs_exploded a))
            end
      end
  end.

(** [state.scores[id] = {state.scores[id].value + 1}; player_pos.erase(id)] *)
Definition destroy_robot (state : GameState) (id : Z) : GameState :=
  let '(score, scores1) := map_index Score_default id (scores state) in
  set_player_pos (delete id (player_pos state))
    (set_scores (<[id := wrap32 (score + 1)]> scores1) state).

Definition updateBombs (fuel : nat) (state : GameState)
    (events : list event_t) : option (GameState * list event_t) :=
  match foldl (updateBombs_step fuel)
          (Some (mkExploding state events ∅ ∅ ∅)) (map_keys (bombs state)) with
  | None => None
  | Some a =>
      let state1 :=
        foldl destroy_robot (ex_state a)
          (ids_toList (robots_destroyed_total a)) in
      let state2 :=
        foldl (λ s pos, set_blocks (blocks s ∖ {[pos]}) s) state1
          (positions_toList (blocks_destroyed_total a)) in
      let state3 :=
        foldl (λ s id, set_bombs (delete id (bombs s)) s) state2
          (ids_toList (bombs_exploded a)) in
      Some (state3, ex_events a)
  end.

Definition placeBomb (pos : Position) (state : GameState)
    (events : list event_t) : GameState * list event_t :=
  (set_next_bomb_id (wrap32 (next_bomb_id state + 1))
     (set_bombs (<[next_bomb_id state := mkBomb pos (bomb_timer params)]>
                   (bombs state)) state),
   events ++ [BombPlaced (next_bomb_id state) pos]).

Definition placeBlock (pos : Position) (state : GameState)
    (events : list event_t) : GameState * list event_t :=
  if decide (pos ∈ blocks state) then (state, events)
  else (set_blocks ({[pos]} ∪ blocks state) state,
        events ++ [BlockPlaced pos]).

Definition movePlayer (p_id : Z) (pos : Position) (state : GameState)
    (events : list event_t) : GameState * list event_t :=
  if (size_x params <=? pos_x pos) || (size_y params <=? pos_y pos)
  then (state, events)
  else if decide (pos ∈ blocks state) then (state, events)
  else (set_player_pos (<[p_id := pos]> (player_pos state)) state,
        events ++ [PlayerMoved p_id pos]).

Definition interpret_PlaceBomb (p_id : Z) (state : GameState)
    (events : list event_t) : GameState * list event_t :=
  let '(pos, player_pos1) :=
    map_index Position_default p_id (player_pos state) in
  placeBomb pos (set_player_pos player_pos1 state) events.

Definition interpret_PlaceBlock (p_id : Z) (state : GameState)
    (events : list event_t) : GameState * list event_t :=
  let '(pos, player_pos1) :=
    map_index Position_default p_id (player_pos state) in
  let state1 := set_player_pos player_pos1 state in
  if decide (pos ∈ blocks state1) then (state1, events)
  else
    let '(pos', player_pos2) :=
      map_index Position_default p_id (player_pos state1) in
    placeBlock pos' (set_player_pos player_pos2 state1) events.

Definition interpret_Move (p_id : Z) (direction : Direction)
    (state : GameState) (events : list event_t)
    : GameState * list event_t :=
  let '(pos, player_pos1) :=
    map_index Position_default p_id (player_pos state) in
  let state1 := set_player_pos player_pos1 state in
  let '(delta_x, delta_y) := getDelta direction in
  let new_x := pos_x pos + delta_x in
  let new_y := pos_y pos + delta_y in
  if on_board (size_x params) (size_y params) new_x new_y then
    movePlayer p_id (mkPosition (wrap16 new_x) (wrap16 new_y)) state1 events
  else (state1, events).

(** Body of the loop of [interpretAllClientMessages]. *)
Definition interpretClientMessage (player_id : Z) (message : client_mess_t)
    (state : GameState) (events : list event_t)
    : GameState * list event_t :=
  match player_pos state !! player_id with
  | None => (state, events)
  | Some _ =>
      match message with
      | Join _ => (state, events)
      | PlaceBomb => interpret_PlaceBomb player_id state events
      | PlaceBlock => interpret_PlaceBlock player_id state events
      | Move direction => interpret_Move player_id direction state events
      end
  end.

Definition interpretAllClientMessages (messages : gmap Z client_mess_t)
    (state : GameState) (events : list event_t)
    : GameState * list event_t :=
  foldl (λ se player_id,
           match messages !! player_id with
           | Some message =>
               interpretClientMessage player_id message (fst se) (snd se)
           | None => se
           end)
        (state, events) (map_keys messages).

(** [Position{.x = random() % size_x, .y = random() % size_y}]: two draws,
    [x] first. The sizes are positive (the option parser rejects 0). *)
Definition random_position (random : Z) : Position * Z :=
  let r1 := minstd_next random in
  let r2 := minstd_next r1 in
  (mkPosition (wrap16 (r1 mod size_x params))
              (wrap16 (r2 mod size_y params)), r2).

(** The manager's view while it fills an event list: the game state, the
    events so far and the state of the random engine. *)
Definition placeMissingRobots_step (acc : GameState * list event_t * Z)
    (player_id : Z) : GameState * list event_t * Z :=
  let '(state, events, random) := acc in
  match player_pos state !! player_id with
  | Some _ => acc
  | None =>
      let '(pos, random') := random_position random in
      (set_player_pos (<[player_id := pos]> (player_pos state)) state,
       events ++ [PlayerMoved player_id pos], random')
  end.

Definition placeMissingRobots (players : gmap Z Player) (state : GameState)
    (events : list event_t) (random : Z) : GameState * list event_t * Z :=
  foldl placeMissingRobots_step (state, events, random) (map_keys players).

(** [for (uint16_t i = 0; i < params.initial_blocks; ++i)]: the counter
    stays below [initial_blocks], so it never wraps; [n] counts the
    iterations left. *)
Fixpoint placeInitialBlocks_loop (n : nat) (state : GameState)
    (events : list event_t) (random : Z) : GameState * list event_t * Z :=
  match n with
  | O => (state, events, random)
  | S n' =>
      let '(new_block_pos, random') := random_position random in
      placeInitialBlocks_loop n'
        (set_blocks ({[new_block_pos]} ∪ blocks state) state)
        (events ++ [BlockPlaced new_block_pos]) random'
  end.

Definition placeInitialBlocks (state : GameState) (events : list event_t)
    (random : Z) : GameState * list event_t * Z :=
  placeInitialBlocks_loop (Z.to_nat (initial_blocks params))
    state events random.

(** The loop body runs [scores.clear()] before every assignment. *)
Definition resetScores (players : gmap Z Player) (state : GameState)
    : GameState :=
  foldl (λ s player_id,
           set_scores (<[player_id := 0]> (∅ : gmap Z Z)) s)
        state (map_keys players).

Definition initializeGame (players : gmap Z Player) (state : GameState)
    (random : Z) : GameState * list event_t * Z :=
  let state1 := resetScores players state in
  let '(state2, events2, random2) :=
    placeMissingRobots players state1 [] random in
  placeInitialBlocks state2 events2 random2.

(** How far one game got. *)
Inductive Progress :=
| Ended (scores : gmap Z Z)   (* [server->endGame(state.scores)] was reached *)
| Running.                    (* the budget ran out, or an explosion loop
                                 never came back *)

Record GameRun := mkGameRun {
  run_turns : list (Z * list event_t);  (* the [closeTurn] calls, in order *)
  run_state : GameState;
  run_random : Z;
  run_progress : Progress
}.

(** The loop [for (uint16_t turn = 1; turn <= params.game_length; ++turn)].
    [intents] holds what [collectLastMessagesFromClients] returns turn by
    turn (nothing once the list is used up); [fuel] bounds the number of
    turns and [efuel] the iterations of one explosion arm. *)
Fixpoint turns (fuel efuel : nat) (players : gmap Z Player)
    (intents : list (gmap Z client_mess_t)) (turn : Z) (state : GameState)
    (random : Z) : GameRun :=
  match fuel with
  | O => mkGameRun [] state random Running
  | S fuel' =>
      if turn <=? game_length params then
        let client_messages := hd ∅ intents in
        match updateBombs efuel state [] with
        | None => mkGameRun [] state random Running
        | Some (state1, events1) =>
            let '(state2, events2) :=
              interpretAllClientMessages client_messages state1 events1 in
            let '(state3, events3, random3) :=
              placeMissingRobots players state2 events2 random in
            let rest :=
              turns fuel' efuel players (tl intents) (wrap16 (turn + 1))
                state3 random3 in
            mkGameRun ((turn, events3) :: run_turns rest) (run_state rest)
              (run_random rest) (run_progress rest)
        end
      else mkGameRun [] state random (Ended (scores state))
  end.

(** One iteration of the outer [for (;;)] of [run]: [players] is what
    [waitForPlayersToStartGame] returned. *)
Definition game (fuel efuel : nat) (players : gmap Z Player)
    (intents : list (gmap Z client_mess_t)) (random : Z) : GameRun :=
  let '(state0, initial_events, random0) :=
    initializeGame players GameState_init random in
  let rest := turns fuel efuel players intents 1 state0 random0 in
  mkGameRun ((0, initial_events) :: run_turns rest) (run_state rest)
    (run_random rest) (run_progress rest).

(** [run]: game after game on one random engine; the next game starts only
    when the previous one has ended. Yields the [Turn] payloads. *)
Fixpoint run_from (fuel efuel : nat)
    (sessions : list (gmap Z Player * list (gmap Z client_mess_t)))
    (random : Z) : list (Z * list event_t) :=
  match sessions with
  | [] => []
  | (players, intents) :: sessions' =>
      let g := game fuel efuel players intents random in
      run_turns g ++
        match run_progress g with
        | Ended _ => run_from fuel efuel sessions' (run_random g)
        | Running => []
        end
  end.

Definition run (fuel efuel : nat)
    (sessions : list (gmap Z Player * list (gmap Z client_mess_t)))
    : list (Z * list event_t) :=
  run_from fuel efuel sessions (minstd_seed (seed params)).

End manager.
End GameManager.

(** ** The shared server state ([server.h], [blocking-queue.h]) *)
Module Server.

Record BlockingQueue := mkQueue {
  queue : list server_mess_t;
  is_open : bool
}.

Definition queue_push (val : server_mess_t) (q : BlockingQueue)
    : BlockingQueue :=
  mkQueue (queue q ++ [val]) (is_open q).

Definition queue_close (q : BlockingQueue) : BlockingQueue :=
  mkQueue (queue q) false.

(** [pop] on a queue that holds something or is closed (otherwise the caller
    blocks: [None]); a closed queue throws, which ends the writer. *)
Inductive Popped :=
| PoppedMessage (m : server_mess_t) (q : BlockingQueue)
| PoppedClosed.

Definition queue_pop (q : BlockingQueue) : option Popped :=
  if is_open q then
    match queue q with
    | [] => None
    | first :: rest => Some (PoppedMessage first (mkQueue rest true))
    end
  else Some PoppedClosed.

(** The members of [Server]. A queue is kept in the table of its client;
    the writer of that client works on the same queue, through the table
    ([writerPop], [writerClose]). [eraseClient] closes a queue and drops it
    in one step, so an erased queue is not kept. *)
Record State := mkState {
  players : gmap Z Player;
  player_ids : gmap Z Z;
  client_message_queues : gmap Z BlockingQueue;
  last_messages_from_clients : gmap Z client_mess_t;
  next_client_id : Z;
  is_lobby : bool;
  message_history : list server_mess_t
}.

Section server.
Variable params : ServerParams.

Definition hello : server_mess_t :=
  Hello (mkHello (server_name params) (players_count params)
           (size_x params) (size_y params) (game_length params)
           (explosion_radius params) (bomb_timer params)).

Definition initializeMessageHistory (s : State) : State :=
  mkState (players s) (player_ids s) (client_message_queues s)
    (last_messages_from_clients s) (next_client_id s) (is_lobby s)
    [hello].

(** The constructor. *)
Definition init : State :=
  initializeMessageHistory (mkState ∅ ∅ ∅ ∅ 0 true []).

Definition acceptClient (s : State) : Z * State :=
  (next_client_id s,
   mkState (players s) (player_ids s) (client_message_queues s)
     (last_messages_from_clients s) (wrap64 (next_client_id s + 1))
     (is_lobby s) (message_history s)).

(** [None] is the failed [assert]. The new queue starts as a copy of the
    message history. *)
Definition createMessageQueue (client_id : Z) (s : State) : option State :=
  match client_message_queues s !! client_id with
  | Some _ => None
  | None =>
      Some (mkState (players s) (player_ids s)
              (<[client_id := mkQueue (message_history s) true]>
                 (client_message_queues s))
              (last_messages_from_clients s) (next_client_id s) (is_lobby s)
              (message_history s))
  end.

Definition eraseClient (client_id : Z) (s : State) : State :=
  let '(player_id, player_ids1) :=
    map_index PlayerId_default client_id (player_ids s) in
  mkState (delete player_id (players s)) (delete client_id player_ids1)
    (delete client_id (client_message_queues s))
    (delete client_id (last_messages_from_clients s)) (next_client_id s)
    (is_lobby s) (message_history s).

Definition setLastMessage (id : Z) (message : client_mess_t) (s : State)
    : State :=
  mkState (players s) (player_ids s) (client_message_queues s)
    (<[id := message]> (last_messages_from_clients s)) (next_client_id s)
    (is_lobby s) (message_history s).

(** Body of the loop of [collectLastMessagesFromClients]:
    [messages[player_ids[client_id]] = last_message]. *)
Definition collect_step (last : gmap Z client_mess_t)
    (acc : gmap Z client_mess_t * gmap Z Z) (client_id : Z)
    : gmap Z client_mess_t * gmap Z Z :=
  match last !! client_id with
  | None => acc
  | Some last_message =>
      let '(player_id, player_ids1) :=
        map_index PlayerId_default client_id (snd acc) in
      (<[player_id := last_message]> (fst acc), player_ids1)
  end.

Definition collectLastMessagesFromClients (s : State)
    : gmap Z client_mess_t * State :=
  let '(messages, player_ids') :=
    foldl (collect_step (last_messages_from_clients s))
      (∅, player_ids s) (map_keys (last_messages_from_clients s)) in
  (messages,
   mkState (players s) player_ids' (client_message_queues s) ∅
     (next_client_id s) (is_lobby s) (message_history s)).

(** The frame goes to the history and to the back of every open queue. *)
Definition broadcast (message : server_mess_t) (s : State) : State :=
  mkState (players s) (player_ids s)
    ((λ q, if is_open q then queue_push message q else q)
       <$> client_message_queues s)
    (last_messages_from_clients s) (next_client_id s) (is_lobby s)
    (message_history s ++ [message]).

Definition tryAcceptPlayer (client_id : Z) (name address : string)
    (s : State) : State :=
  if is_lobby s then
    match player_ids s !! client_id with
    | Some _ => s
    | None =>
        if Z.of_nat (size (player_ids s)) <? players_count params then
          let player_id := wrap8 (Z.of_nat (size (player_ids s))) in
          let player := mkPlayer name address in
          broadcast (AcceptedPlayer player_id player)
            (mkState (<[player_id := player]> (players s))
               (<[client_id := player_id]> (player_ids s))
               (client_message_queues s) (last_messages_from_clients s)
               (next_client_id s) (is_lobby s) (message_history s))
        else s
    end
  else s.

Definition startGame (s : State) : State :=
  broadcast (GameStarted (players s))
    (initializeMessageHistory
       (mkState (players s) (player_ids s) (client_message_queues s) ∅
          (next_client_id s) false (message_history s))).

Definition startLobby (s : State) : State :=
  initializeMessageHistory
    (mkState ∅ ∅ (client_message_queues s) ∅ (next_client_id s) true
       (message_history s)).

(** [None]: the caller still waits on [players_joined]. *)
Definition waitForPlayersToStartGame (s : State)
    : option (gmap Z Player * State) :=
  if Z.of_nat (size (players s)) =? players_count params then
    let s' := startGame s in Some (players s', s')
  else None.

Definition closeTurn (turn_id : Z) (events : list event_t) (s : State)
    : State :=
  broadcast (Turn turn_id events) s.

Definition endGame (scores : gmap Z Z) (s : State) : State :=
  startLobby (broadcast (GameEnded scores) s).

Definition set_queue (client_id : Z) (q : BlockingQueue) (s : State)
    : State :=
  mkState (players s) (player_ids s)
    (<[client_id := q]> (client_message_queues s))
    (last_messages_from_clients s) (next_client_id s) (is_lobby s)
    (message_history s).

(** The writer of a client takes the next frame of its queue; [None] when
    the queue is gone or closed, or the writer blocks. *)
Definition writerPop (client_id : Z) (s : State)
    : option (server_mess_t * State) :=
  match client_message_queues s !! client_id with
  | None => None
  | Some q =>
      match queue_pop q with
      | Some (PoppedMessage m q') => Some (m, set_queue client_id q' s)
      | _ => None
      end
  end.

(** The writer of a client fails and closes its queue. *)
Definition writerClose (client_id : Z) (s : State) : State :=
  match client_message_queues s !! client_id with
  | None => s
  | Some q => set_queue client_id (queue_close q) s
  end.

(** What the acceptor, the readers, the writers and the game manager may
    call on the server state while a game is on. *)
Inductive Call :=
| CallAcceptClient
| CallCreateMessageQueue (client_id : Z)
| CallEraseClient (client_id : Z)
| CallSetLastMessage (client_id : Z) (message : client_mess_t)
| CallCollectLastMessages
| CallTryAcceptPlayer (client_id : Z) (name address : string)
| CallWriterPop (client_id : Z)
| CallWriterClose (client_id : Z)
| CallCloseTurn (turn_id : Z) (events : list event_t).

Definition call (c : Call) (s : State) : option State :=
  match c with
  | CallAcceptClient => Some (snd (acceptClient s))
  | CallCreateMessageQueue client_id => createMessageQueue client_id s
  | CallEraseClient client_id => Some (eraseClient client_id s)
  | CallSetLastMessage client_id message =>
      Some (setLastMessage client_id message s)
  | CallCollectLastMessages => Some (snd (collectLastMessagesFromClients s))
  | CallTryAcceptPlayer client_id name address =>
      Some (tryAcceptPlayer client_id name address s)
  | CallWriterPop client_id => snd <$> writerPop client_id s
  | CallWriterClose client_id => Some (writerClose client_id s)
  | CallCloseTurn turn_id events => Some (closeTurn turn_id events s)
  end.

Fixpoint calls (cs : list Call) (s : State) : option State :=
  match cs with
  | [] => Some s
  | c :: cs' =>
      match call c s with
      | Some s' => calls cs' s'
      | None => None
      end
  end.

(** The [Turn] frames a sequence of calls broadcasts. *)
Fixpoint turn_frames (cs : list Call) : list server_mess_t :=
  match cs with
  | [] => []
  | CallCloseTurn turn_id events :: cs' =>
      Turn turn_id events :: turn_frames cs'
  | _ :: cs' => turn_frames cs'
  end.

End server.
End Server.

(** ** The client's derived state and its events
    ([client/types.h], [client/events.h]) *)
Module Client.

Record ClientState := mkClientState {
  robots_destroyed_in_turn : gset Z;
  blocks_destroyed_in_turn : gset Position;
  is_lobby : bool;
  players_count : Z;
  size_x : Z;
  size_y : Z;
  game_length : Z;
  explosion_radius : Z;
  bomb_timer : Z;
  turn : Z;
  players : gmap Z Player;
  player_positions : gmap Z Position;
  blocks : gset Position;
  bombs : gmap Z Bomb;
  explosions : gset Position;
  scores : gmap Z Z
}.

Definition set_robots_destroyed_in_turn (v : gset Z) (c : ClientState) :=
  mkClientState v (blocks_destroyed_in_turn c) (is_lobby c)
    (players_count c) (size_x c) (size_y c) (game_length c)
    (explosion_radius c) (bomb_timer c) (turn c) (players c)
    (player_positions c) (blocks c) (bombs c) (explosions c) (scores c).
Definition set_blocks_destroyed_in_turn (v : gset Position)
    (c : ClientState) :=
  mkClientState (robots_destroyed_in_turn c) v (is_lobby c)
    (players_count c) (size_x c) (size_y c) (game_length c)
    (explosion_radius c) (bomb_timer c) (turn c) (players c)
    (player_positions c) (blocks c) (bombs c) (explosions c) (scores c).
Definition set_player_positions (v : gmap Z Position) (c : ClientState) :=
  mkClientState (robots_destroyed_in_turn c) (blocks_destroyed_in_turn c)
    (is_lobby c) (players_count c) (size_x c) (size_y c) (game_length c)
    (explosion_radius c) (bomb_timer c) (turn c) (players c)
    v (blocks c) (bombs c) (explosions c) (scores c).
Definition set_blocks (v : gset Position) (c : ClientState) :=
  mkClientState (robots_destroyed_in_turn c) (blocks_destroyed_in_turn c)
    (is_lobby c) (players_count c) (size_x c) (size_y c) (game_length c)
    (explosion_radius c) (bomb_timer c) (turn c) (players c)
    (player_positions c) v (bombs c) (explosions c) (scores c).
Definition set_bombs (v : gmap Z Bomb) (c : ClientState) :=
  mkClientState (robots_destroyed_in_turn c) (blocks_destroyed_in_turn c)
    (is_lobby c) (players_count c) (size_x c) (size_y c) (game_length c)
    (explosion_radius c) (bomb_timer c) (turn c) (players c)
    (player_positions c) (blocks c) v (explosions c) (scores c).
Definition set_explosions (v : gset Position) (c : ClientState) :=
  mkClientState (robots_destroyed_in_turn c) (blocks_destroyed_in_turn c)
    (is_lobby c) (players_count c) (size_x c) (size_y c) (game_length c)
    (explosion_radius c) (bomb_timer c) (turn c) (players c)
    (player_positions c) (blocks c) (bombs c) v (scores c).

Definition BombPlaced_apply (id : Z) (position : Position)
    (c : ClientState) : ClientState :=
  set_bombs (<[id := mkBomb position (bomb_timer c)]> (bombs c)) c.

(** One arm of [BombExploded::calcExplosion]: the loop
    [for (uint16_t r = 0; r <= c.explosion_radius; ++r)] entered at counter
    value [r]; every cell goes straight into [c.explosions]. *)
Fixpoint calcExplosion_arm (fuel : nat) (bomb_pos : Position)
    (dx dy r : Z) (c : ClientState) : option ClientState :=
  match fuel with
  | O => None
  | S fuel' =>
      if r <=? explosion_radius c then
        let x := pos_x bomb_pos + dx * r in
        let y := pos_y bomb_pos + dy * r in
        if on_board (size_x c) (size_y c) x y then
          let pos := mkPosition (wrap16 x) (wrap16 y) in
          let c' := set_explosions ({[pos]} ∪ explosions c) c in
          if decide (pos ∈ blocks c') then Some c'
          else calcExplosion_arm fuel' bomb_pos dx dy (wrap16 (r + 1)) c'
        else calcExplosion_arm fuel' bomb_pos dx dy (wrap16 (r + 1)) c
      else Some c
  end.

Fixpoint calcExplosion_arms (fuel : nat) (bomb_pos : Position)
    (deltas : list (Z * Z)) (c : ClientState) : option ClientState :=
  match deltas with
  | [] => Some c
  | (dx, dy) :: deltas' =>
      match calcExplosion_arm fuel bomb_pos dx dy 0 c with
      | None => None
      | Some c' => calcExplosion_arms fuel bomb_pos deltas' c'
      end
  end.

(** [auto bomb_pos = c.bombs[id].position;] creates the bomb when the id is
    unknown. *)
Definition calcExplosion (fuel : nat) (id : Z) (c : ClientState)
    : option ClientState :=
  let '(bomb, bombs1) := map_index Bomb_default id (bombs c) in
  calcExplosion_arms fuel (bomb_position bomb) arm_deltas
    (set_bombs bombs1 c).

Definition BombExploded_apply (fuel : nat) (id : Z)
    (robots_destroyed : list Z) (blocks_destroyed : list Position)
    (c : ClientState) : option ClientState :=
  match calcExplosion fuel id c with
  | None => None
  | Some c1 =>
      let c2 :=
        foldl (λ c p,
                 set_blocks_destroyed_in_turn
                   ({[p]} ∪ blocks_destroyed_in_turn c) c)
              c1 blocks_destroyed in
      let c3 :=
        foldl (λ c p,
                 set_player_positions (delete p (player_positions c))
                   (set_robots_destroyed_in_turn
                      ({[p]} ∪ robots_destroyed_in_turn c) c))
              c2 robots_destroyed in
      Some (set_bombs (delete id (bombs c3)) c3)
  end.

Definition PlayerMoved_apply (id : Z) (position : Position)
    (c : ClientState) : ClientState :=
  set_player_positions (<[id := position]> (player_positions c)) c.

Definition BlockPlaced_apply (position : Position) (c : ClientState)
    : ClientState :=
  set_blocks ({[position]} ∪ blocks c) c.

Definition apply (fuel : nat) (e : event_t) (c : ClientState)
    : option ClientState :=
  match e with
  | BombPlaced id position => Some (BombPlaced_apply id position c)
  | BombExploded id robots_destroyed blocks_destroyed =>
      BombExploded_apply fuel id robots_destroyed blocks_destroyed c
  | PlayerMoved id position => Some (PlayerMoved_apply id position c)
  | BlockPlaced position => Some (BlockPlaced_apply position c)
  end.

End Client.

(** ** Measures on the events of a game *)

Definition robots_destroyed_of (e : event_t) : list Z :=
  match e with
  | BombExploded _ robots_destroyed _ => robots_destroyed
  | _ => []
  end.

(** The number of [PlayerId] entries over the [robots_destroyed] lists of
    the [BombExploded] events of one turn. *)
Definition robots_destroyed_entries (events : list event_t) : Z :=
  Z.of_nat (length (events ≫= robots_destroyed_of)).

(** The players named in those lists. *)
Definition robots_destroyed_in (events : list event_t) : gset Z :=
  list_to_set (events ≫= robots_destroyed_of).

(** The number of different players named in them. *)
Definition robots_destroyed_distinct (events : list event_t) : Z :=
  Z.of_nat (size (robots_destroyed_in events)).

Definition sum_over_turns (f : list event_t → Z)
    (turns : list (Z * list event_t)) : Z :=
  foldr (λ t acc, f (snd t) + acc) 0 turns.

(** The sum of the scores of a table. *)
Definition total_score (scores : gmap Z Z) : Z :=
  map_fold (λ _ score acc, score + acc) 0 scores.

(** A step of the game manager that neither touches the scores nor adds a
    [BombExploded] to the events. *)
Definition quiet (before after : GameManager.GameState * list event_t)
    : Prop :=
  GameManager.scores (fst after) = GameManager.scores (fst before)
  ∧ robots_destroyed_in (snd after) = robots_destroyed_in (snd before).

(** The client state [c] and the server's [params] and [state] describe the
    same board: dimensions, explosion radius and blocks. *)
Definition same_board (params : ServerParams)
    (state : GameManager.GameState) (c : Client.ClientState) : Prop :=
  size_x params = Client.size_x c ∧ size_y params = Client.size_y c ∧
  explosion_radius params = Client.explosion_radius c ∧
  GameManager.blocks state = Client.blocks c.

(** A stream of intent snapshots in which nothing ever arrives. *)
Definition no_intents (intents : list (gmap Z client_mess_t)) : Prop :=
  Forall (λ messages, messages = ∅) intents.

(** ** Concrete sessions *)
Module Scenario.

Definition alice : Player := mkPlayer "alice" "[::1]:40001".
Definition bob : Player := mkPlayer "bob" "[::1]:40002".

(** One player on a 4 x 4 board. *)
Definition solo : ServerParams :=
  mkServerParams 2 1 100 1 0 3 "robots" 2022 42 4 4.

(** Client 0 connects and joins as player 0 (alice); client 1 connects and
    only watches. *)
Definition two_clients : Server.State :=
  default (Server.init solo)
    (Server.calls solo
       [Server.CallAcceptClient; Server.CallCreateMessageQueue 0;
        Server.CallTryAcceptPlayer 0 "alice" "[::1]:40001";
        Server.CallAcceptClient; Server.CallCreateMessageQueue 1]
       (Server.init solo)).

(** The game starts, and the watching client 1 sends [PlaceBomb]. *)
Definition spectator_bombs : Server.State :=
  Server.setLastMessage 1 PlaceBomb (Server.startGame solo two_clients).

(** Alice joins, the game starts and turn 0 is closed; then client 2
    connects. *)
Definition alice_joined : Server.State :=
  Server.tryAcceptPlayer solo 0 "alice" "[::1]:40001" (Server.init solo).

Definition turn_0_calls : list Server.Call :=
  [Server.CallCloseTurn 0 [PlayerMoved 0 (mkPosition 2 3)];
   Server.CallAcceptClient].

Definition turn_0_closed : Server.State :=
  snd (Server.acceptClient
         (Server.closeTurn 0 [PlayerMoved 0 (mkPosition 2 3)]
            (Server.startGame solo alice_joined))).

Definition late_joined : Server.State :=
  default turn_0_closed (Server.createMessageQueue 2 turn_0_closed).

(** The same through the calls of the threads: the queue of client 2. *)
Definition late_joiner_queue : option (list server_mess_t) :=
  s ← Server.calls solo
        [Server.CallTryAcceptPlayer 0 "alice" "[::1]:40001"]
        (Server.init solo);
  s ← snd <$> Server.waitForPlayersToStartGame solo s;
  s ← Server.calls solo
        (turn_0_calls ++ [Server.CallCreateMessageQueue 2]) s;
  Server.queue <$> Server.client_message_queues s !! 2.

(** A robot in the corner (0, 0) of an empty board. *)
Definition cornered : GameManager.GameState :=
  GameManager.mkGameState ∅ ∅ {[0 := mkPosition 0 0]} {[0 := 0]} 0.

(** Two players on a board of a single cell; bombs go off the turn after
    they are placed, the game lasts two turns. Both players place a bomb in
    turn 1. *)
Definition one_cell : ServerParams :=
  mkServerParams 1 2 100 0 0 2 "robots" 2022 1 1 1.

Definition both_place_bombs : list (gmap Z client_mess_t) :=
  [{[0 := PlaceBomb; 1 := PlaceBomb]}].

(** Two players on a 3 x 3 board. *)
Definition duel : ServerParams :=
  mkServerParams 1 2 100 1 0 2 "robots" 2022 7 3 3.

(** A 5 x 5 board with radius 2 and a block at (3, 1), as the server and
    as a client see it; the client knows bomb 7 at (1, 1). *)
Definition blocked : ServerParams :=
  mkServerParams 2 2 100 2 0 10 "robots" 2022 7 5 5.

Definition blocked_state : GameManager.GameState :=
  GameManager.mkGameState {[7 := mkBomb (mkPosition 1 1) 1]}
    {[mkPosition 3 1]} ∅ ∅ 8.

Definition blocked_view : Client.ClientState :=
  Client.mkClientState ∅ ∅ false 2 5 5 10 2 2 4 ∅ ∅ {[mkPosition 3 1]}
    {[7 := mkBomb (mkPosition 1 1) 1]} ∅ ∅.

(** A client on a board of one cell that was told radius 65535. *)
Definition widest_view : Client.ClientState :=
  Client.mkClientState ∅ ∅ false 1 1 1 1 65535 1 1 ∅ ∅ ∅ ∅ ∅ ∅.

End Scenario.

(** * Properties *)

(** ** Fixed-width facts *)

Lemma wrap16_small z : 0 ≤ z < 65536 → wrap16 z = z.
Proof. intros H. unfold wrap16. apply Z.mod_small. lia. Qed.

Lemma wrap16_range z : 0 ≤ wrap16 z ≤ 65535.
Proof.
  unfold wrap16. pose proof (Z.mod_pos_bound z (2 ^ 16)). lia.
Qed.

Lemma on_board_spec sx sy x y :
  on_board sx sy x y = true ↔ 0 ≤ x < sx ∧ 0 ≤ y < sy.
Proof. unfold on_board. rewrite !andb_true_iff. lia. Qed.

Lemma on_board_false sx sy x y :
  on_board sx sy x y = false ↔ ¬ (0 ≤ x < sx ∧ 0 ≤ y < sy).
Proof. rewrite <- on_board_spec. destruct (on_board sx sy x y); naive_solver. Qed.

(** ** The explosion loops of the server *)
Section explosion.
Variable params : ServerParams.
Variable state : GameManager.GameState.
Variable bomb_pos : Position.

Local Abbreviation arm := (GameManager.calcExplosion_arm params).
Local Abbreviation arms := (GameManager.calcExplosion_arms params).

(** An arm only adds to the set it is entered with. *)
Lemma calcExplosion_arm_acc fuel dx dy r acc :
  arm fuel bomb_pos state dx dy r acc
  = (λ s, s ∪ acc) <$> arm fuel bomb_pos state dx dy r ∅.
Proof.
  revert r acc. induction fuel as [|fuel IH]; intros r acc; simpl; [done|].
  destruct (r <=? explosion_radius params); simpl; [|f_equal; set_solver].
  destruct (on_board _ _ _ _); [|apply IH].
  destruct (decide _); simpl; [f_equal; set_solver|].
  rewrite IH. rewrite (IH _ (_ ∪ ∅)).
  destruct (arm fuel _ _ _ _ _ ∅); simpl; [f_equal; set_solver|done].
Qed.

Lemma calcExplosion_arms_acc fuel deltas acc :
  arms fuel bomb_pos state deltas acc
  = (λ s, s ∪ acc) <$> arms fuel bomb_pos state deltas ∅.
Proof.
  revert acc. induction deltas as [|[dx dy] deltas IH]; intros acc; simpl.
  { f_equal. set_solver. }
  rewrite (calcExplosion_arm_acc _ _ _ _ acc).
  destruct (arm fuel _ _ _ _ _ ∅) as [a|]; simpl; [|done].
  rewrite (IH (a ∪ acc)), (IH a).
  destruct (arms fuel _ _ _ ∅); simpl; [f_equal; set_solver|done].
Qed.

(** With the largest radius the loop test [r <= 65535] holds for every
    16-bit [r]: an arm that meets no block never ends. *)
Lemma calcExplosion_arm_radius_max fuel dx dy r acc :
  explosion_radius params = UINT16_MAX →
  GameManager.blocks state = ∅ →
  0 ≤ r ≤ 65535 →
  arm fuel bomb_pos state dx dy r acc = None.
Proof.
  intros Hrad Hblocks. revert r acc.
  induction fuel as [|fuel IH]; intros r acc Hr; simpl; [done|].
  rewrite Hrad. unfold UINT16_MAX.
  destruct (Z.leb_spec r 65535); [|lia].
  destruct (on_board _ _ _ _).
  - rewrite Hblocks. destruct (decide _) as [Hin|_]; [set_solver|].
    apply IH, wrap16_range.
  - apply IH, wrap16_range.
Qed.

(** Once the counter is past the radius, or every further point is off the
    board, the arm returns what it was entered with. *)
Lemma calcExplosion_arm_off_board (n : nat) fuel dx dy r acc :
  explosion_radius params < 65535 →
  0 ≤ r →
  n = Z.to_nat (explosion_radius params + 1 - r) →
  (n < fuel)%nat →
  (∀ r', r ≤ r' →
     on_board (size_x params) (size_y params)
       (pos_x bomb_pos + dx * r') (pos_y bomb_pos + dy * r') = false) →
  arm fuel bomb_pos state dx dy r acc = Some acc.
Proof.
  intros Hrad. revert fuel r acc.
  induction n as [|n IH]; intros fuel r acc Hr Hn Hfuel Hoff;
    (destruct fuel as [|fuel]; [lia|]); simpl.
  - destruct (Z.leb_spec r (explosion_radius params)); [lia|done].
  - destruct (Z.leb_spec r (explosion_radius params)); [|done].
    rewrite Hoff by lia.
    rewrite wrap16_small by lia.
    apply IH; [lia|lia|lia|]. intros r' Hr'. apply Hoff. lia.
Qed.

(** Below the largest radius an arm comes back within
    [explosion_radius + 2] iterations, wherever the bomb is. *)
Lemma calcExplosion_arm_returns (n : nat) fuel dx dy r acc :
  explosion_radius params < 65535 →
  0 ≤ r →
  n = Z.to_nat (explosion_radius params + 1 - r) →
  (n < fuel)%nat →
  is_Some (arm fuel bomb_pos state dx dy r acc).
Proof.
  intros Hrad. revert fuel r acc.
  induction n as [|n IH]; intros fuel r acc Hr Hn Hfuel;
    (destruct fuel as [|fuel]; [lia|]); simpl.
  - destruct (Z.leb_spec r (explosion_radius params)); [lia|done].
  - destruct (Z.leb_spec r (explosion_radius params)); [|done].
    rewrite (wrap16_small (r + 1)) by lia.
    destruct (on_board _ _ (_ + _) (_ + _)); [|apply IH; lia].
    destruct (decide _); [done|apply IH; lia].
Qed.

Lemma calcExplosion_arms_return fuel deltas acc :
  explosion_radius params < 65535 →
  (Z.to_nat (explosion_radius params + 1) < fuel)%nat →
  is_Some (arms fuel bomb_pos state deltas acc).
Proof.
  intros Hrad Hfuel. revert acc.
  induction deltas as [|[dx dy] deltas IH]; intros acc; simpl; [done|].
  destruct (calcExplosion_arm_returns
              (Z.to_nat (explosion_radius params + 1)) fuel dx dy 0 acc)
    as [acc' ->]; [done|done|f_equal; lia|done|].
  apply IH.
Qed.

(** Along an arm that starts on the board, a point off the board is
    followed by points off the board only. *)
Lemma arm_leaves_board_once dx dy r1 r2 :
  on_board (size_x params) (size_y params) (pos_x bomb_pos) (pos_y bomb_pos)
  = true →
  (dx, dy) ∈ arm_deltas →
  0 ≤ r1 ≤ r2 →
  on_board (size_x params) (size_y params)
    (pos_x bomb_pos + dx * r1) (pos_y bomb_pos + dy * r1) = false →
  on_board (size_x params) (size_y params)
    (pos_x bomb_pos + dx * r2) (pos_y bomb_pos + dy * r2) = false.
Proof.
  rewrite on_board_spec, !on_board_false. unfold arm_deltas.
  intros Hb Hd Hr. repeat (apply elem_of_cons in Hd as [Hd|Hd]);
    [..|by apply elem_of_nil in Hd]; injection Hd as -> ->; lia.
Qed.

(** An arm entered at [r] with enough budget computes the arm of the
    reference cross from [r] on. *)
Lemma calcExplosion_arm_cross (n : nat) fuel dx dy r acc :
  size_x params ≤ 65536 → size_y params ≤ 65536 →
  explosion_radius params < 65535 →
  on_board (size_x params) (size_y params) (pos_x bomb_pos) (pos_y bomb_pos)
  = true →
  (dx, dy) ∈ arm_deltas →
  0 ≤ r →
  n = Z.to_nat (explosion_radius params + 1 - r) →
  (n < fuel)%nat →
  arm fuel bomb_pos state dx dy r acc
  = Some (Cross.arm n (size_x params) (size_y params)
            (GameManager.blocks state) bomb_pos dx dy r ∪ acc).
Proof.
  intros Hsx Hsy Hrad Hb Hd. revert fuel r acc.
  induction n as [|n IH]; intros fuel r acc Hr Hn Hfuel;
    (destruct fuel as [|fuel]; [lia|]); simpl.
  - destruct (Z.leb_spec r (explosion_radius params)); [lia|].
    f_equal. set_solver.
  - destruct (Z.leb_spec r (explosion_radius params)); [|lia].
    destruct (on_board _ _ (_ + _) (_ + _)) eqn:Hon.
    + apply on_board_spec in Hon.
      rewrite !wrap16_small by lia.
      destruct (decide _); [f_equal; set_solver|].
      rewrite IH by lia. f_equal. set_solver.
    + rewrite wrap16_small by lia.
      rewrite (calcExplosion_arm_off_board n) by
        (try lia; intros r' Hr'; apply (arm_leaves_board_once dx dy r r');
         auto; lia).
      f_equal. set_solver.
Qed.

End explosion.

(** For a radius below 65535 and a bomb on the board, [calcExplosion] comes
    back (any budget above [explosion_radius + 1] is enough) with the cross
    of section 4.5. *)
Lemma calcExplosion_cross params fuel bomb_pos state :
  size_x params ≤ 65536 → size_y params ≤ 65536 →
  0 ≤ explosion_radius params < 65535 →
  on_board (size_x params) (size_y params) (pos_x bomb_pos) (pos_y bomb_pos)
  = true →
  (Z.to_nat (explosion_radius params + 1) < fuel)%nat →
  GameManager.calcExplosion params fuel bomb_pos state
  = Some (Cross.cross (size_x params) (size_y params)
            (explosion_radius params) (GameManager.blocks state) bomb_pos).
Proof.
  intros Hsx Hsy Hrad Hb Hfuel.
  unfold GameManager.calcExplosion, Cross.cross, arm_deltas. simpl.
  repeat
    (rewrite (calcExplosion_arm_cross params state bomb_pos
                (Z.to_nat (explosion_radius params + 1)))
       by (auto; try lia; unfold arm_deltas; set_solver)).
  f_equal. set_solver.
Qed.

(** The bomb's own cell is in the cross. *)
Lemma cross_contains_bomb sx sy radius blocks bomb_pos :
  0 ≤ radius →
  on_board sx sy (pos_x bomb_pos) (pos_y bomb_pos) = true →
  bomb_pos ∈ Cross.cross sx sy radius blocks bomb_pos.
Proof.
  intros Hrad Hb. unfold Cross.cross, arm_deltas. cbn [map fst snd].
  destruct (Z.to_nat (radius + 1)) as [|n] eqn:Hn; [lia|].
  cbn [Cross.arm union_list foldr].
  rewrite Z.mul_0_r, !Z.add_0_r, Hb. destruct bomb_pos. set_solver.
Qed.

(** C6. The claim asks, for every explosion radius, that the server's
    affected set be the reference cross. [--explosion-radius 65535] is
    accepted, and there the 16-bit counter [r] of the arm loop
    [for (r = 0; r <= explosion_radius; ++r)] wraps to 0 instead of passing
    the radius: on a board without blocks [calcExplosion] never returns,
    whatever the iteration budget and wherever the bomb is. *)
Theorem calcExplosion_radius_max_diverges params fuel bomb_pos state :
  explosion_radius params = UINT16_MAX →
  GameManager.blocks state = ∅ →
  GameManager.calcExplosion params fuel bomb_pos state = None.
Proof.
  intros Hrad Hblocks. unfold GameManager.calcExplosion, arm_deltas. simpl.
  by rewrite calcExplosion_arm_radius_max.
Qed.

Lemma calcExplosion_radius_max_diverges_witness :
  GameManager.calcExplosion
    (mkServerParams 1 1 100 65535 0 1 "robots" 2022 1 1 1) 1000
    (mkPosition 0 0) GameManager.GameState_init = None.
Proof.
  apply calcExplosion_radius_max_diverges; reflexivity.
Defined.

(** ** The explosion loops of the client against those of the server *)
Section client_explosion.
Variable params : ServerParams.
Variable state : GameManager.GameState.
Variable bomb_pos : Position.

Lemma client_calcExplosion_arm fuel dx dy r c :
  same_board params state c →
  Client.calcExplosion_arm fuel bomb_pos dx dy r c
  = (λ s, Client.set_explosions s c)
      <$> GameManager.calcExplosion_arm params fuel bomb_pos state dx dy r
            (Client.explosions c).
Proof.
  revert r c. induction fuel as [|fuel IH]; intros r c Hc; simpl; [done|].
  destruct Hc as (Hsx & Hsy & Hrad & Hblocks).
  rewrite Hsx, Hsy, Hrad, Hblocks.
  destruct (r <=? Client.explosion_radius c); [|by destruct c].
  destruct (on_board _ _ _ _); [|by apply IH].
  destruct (decide _); [done|].
  by rewrite IH.
Qed.

Lemma client_calcExplosion_arms fuel deltas c :
  same_board params state c →
  Client.calcExplosion_arms fuel bomb_pos deltas c
  = (λ s, Client.set_explosions s c)
      <$> GameManager.calcExplosion_arms params fuel bomb_pos state deltas
            (Client.explosions c).
Proof.
  revert c. induction deltas as [|[dx dy] deltas IH]; intros c Hc; simpl.
  { by destruct c. }
  rewrite client_calcExplosion_arm by done.
  destruct (GameManager.calcExplosion_arm _ _ _ _ _ _ _ _); simpl; [|done].
  by rewrite IH.
Qed.

End client_explosion.

(** What [c.bombs[id].position] reads. *)
Lemma client_bomb_position id c :
  bomb_position (fst (map_index Bomb_default id (Client.bombs c)))
  = bomb_position (default Bomb_default (Client.bombs c !! id)).
Proof. unfold map_index. by destruct (Client.bombs c !! id). Qed.

(** C7. On the same board (dimensions, radius, block set) and for the same
    bomb position, the client's [calcExplosion] behaves as the server's for
    every iteration budget: both come back or neither does, and the client's
    [explosions] afterwards are the server's affected set added to the
    [explosions] it had. *)
Theorem client_calcExplosion_is_server_calcExplosion
    params state fuel id c :
  size_x params = Client.size_x c →
  size_y params = Client.size_y c →
  explosion_radius params = Client.explosion_radius c →
  GameManager.blocks state = Client.blocks c →
  Client.explosions <$> Client.calcExplosion fuel id c
  = (λ affected, affected ∪ Client.explosions c)
      <$> GameManager.calcExplosion params fuel
            (bomb_position (default Bomb_default (Client.bombs c !! id)))
            state.
Proof.
  intros Hsx Hsy Hrad Hblocks.
  unfold Client.calcExplosion, GameManager.calcExplosion.
  rewrite <- client_bomb_position.
  destruct (map_index Bomb_default id (Client.bombs c)) as [bomb bombs1].
  rewrite (client_calcExplosion_arms params state) by done.
  change (Client.explosions (Client.set_bombs bombs1 c))
    with (Client.explosions c).
  cbn [fst]. rewrite calcExplosion_arms_acc.
  by destruct (GameManager.calcExplosion_arms _ _ _ _ _ ∅).
Qed.

Lemma client_calcExplosion_is_server_calcExplosion_witness :
  Client.explosions <$> Client.calcExplosion 10 7 Scenario.blocked_view
  = (λ affected, affected ∪ Client.explosions Scenario.blocked_view)
      <$> GameManager.calcExplosion Scenario.blocked 10
            (bomb_position
               (default Bomb_default
                  (Client.bombs Scenario.blocked_view !! 7)))
            Scenario.blocked_state.
Proof.
  apply client_calcExplosion_is_server_calcExplosion; reflexivity.
Defined.

(** On that board both sides find the cross around (1, 1): the arm to the
    east ends on the block at (3, 1). *)
Example blocked_cross :
  positions_toList
    <$> (Client.explosions
           <$> Client.calcExplosion 10 7 Scenario.blocked_view)
  = Some [mkPosition 0 1; mkPosition 1 0; mkPosition 1 1; mkPosition 1 2;
          mkPosition 1 3; mkPosition 2 1; mkPosition 3 1].
Proof. reflexivity. Qed.

(** ** [BombExploded::apply] on the client *)

Lemma client_calcExplosion_arm_radius_max fuel bomb_pos dx dy r c :
  Client.explosion_radius c = UINT16_MAX →
  Client.blocks c = ∅ →
  0 ≤ r ≤ 65535 →
  Client.calcExplosion_arm fuel bomb_pos dx dy r c = None.
Proof.
  revert r c. induction fuel as [|fuel IH]; intros r c Hrad Hblocks Hr;
    simpl; [done|].
  rewrite Hrad. unfold UINT16_MAX.
  destruct (Z.leb_spec r 65535); [|lia].
  destruct (on_board _ _ _ _).
  - rewrite Hblocks. destruct (decide _) as [Hin|_]; [set_solver|].
    apply IH; auto using wrap16_range.
  - apply IH; auto using wrap16_range.
Qed.

Lemma client_fold_blocks_destroyed (l : list Position) c :
  foldl (λ c p,
           Client.set_blocks_destroyed_in_turn
             ({[p]} ∪ Client.blocks_destroyed_in_turn c) c) c l
  = Client.set_blocks_destroyed_in_turn
      (list_to_set l ∪ Client.blocks_destroyed_in_turn c) c.
Proof.
  revert c. induction l as [|p l IH]; intros c; simpl.
  - destruct c. unfold Client.set_blocks_destroyed_in_turn. simpl.
    f_equal. set_solver.
  - rewrite IH. unfold Client.set_blocks_destroyed_in_turn. simpl.
    f_equal. set_solver.
Qed.

Lemma client_fold_robots_destroyed (l : list Z) c :
  foldl (λ c p,
           Client.set_player_positions (delete p (Client.player_positions c))
             (Client.set_robots_destroyed_in_turn
                ({[p]} ∪ Client.robots_destroyed_in_turn c) c)) c l
  = Client.set_player_positions
      (foldl (λ m p, delete p m) (Client.player_positions c) l)
      (Client.set_robots_destroyed_in_turn
         (list_to_set l ∪ Client.robots_destroyed_in_turn c) c).
Proof.
  revert c. induction l as [|p l IH]; intros c; simpl.
  - destruct c.
    unfold Client.set_player_positions, Client.set_robots_destroyed_in_turn.
    simpl. f_equal. set_solver.
  - rewrite IH.
    unfold Client.set_player_positions, Client.set_robots_destroyed_in_turn.
    simpl. f_equal. set_solver.
Qed.

Lemma fold_delete_lookup {V} (l : list Z) (m : gmap Z V) k :
  foldl (λ m p, delete p m) m l !! k
  = if decide (k ∈ l) then None else m !! k.
Proof.
  revert m. induction l as [|p l IH]; intros m; simpl.
  - destruct (decide (k ∈ [])) as [Hin|]; [by apply elem_of_nil in Hin|done].
  - rewrite IH.
    destruct (decide (k ∈ l)) as [Hl|Hl], (decide (k ∈ p :: l)) as [Hpl|Hpl];
      try done.
    + set_solver.
    + apply elem_of_cons in Hpl as [->|]; [by rewrite lookup_delete_eq|done].
    + rewrite lookup_delete_ne; [done|]. set_solver.
Qed.

(** For a radius below 65535 the event is applied as the claim C10 says:
    the unknown bomb counts as one at (0, 0), the cross around it joins
    [explosions], the listed robots and blocks are recorded, the robots
    lose their position, and [bombs] is as before, without the id. *)
Lemma client_BombExploded_apply_unknown_bomb
    fuel id robots_destroyed blocks_destroyed c :
  Client.bombs c !! id = None →
  0 < Client.size_x c ≤ 65536 → 0 < Client.size_y c ≤ 65536 →
  0 ≤ Client.explosion_radius c < 65535 →
  (Z.to_nat (Client.explosion_radius c + 1) < fuel)%nat →
  ∃ c',
    Client.BombExploded_apply fuel id robots_destroyed blocks_destroyed c
    = Some c'
    ∧ Client.explosions c'
      = Cross.cross (Client.size_x c) (Client.size_y c)
          (Client.explosion_radius c) (Client.blocks c) (mkPosition 0 0)
        ∪ Client.explosions c
    ∧ Client.robots_destroyed_in_turn c'
      = list_to_set robots_destroyed ∪ Client.robots_destroyed_in_turn c
    ∧ Client.blocks_destroyed_in_turn c'
      = list_to_set blocks_destroyed ∪ Client.blocks_destroyed_in_turn c
    ∧ (∀ p, Client.player_positions c' !! p
            = if decide (p ∈ robots_destroyed) then None
              else Client.player_positions c !! p)
    ∧ Client.bombs c' = Client.bombs c
    ∧ Client.bombs c' !! id = None.
Proof.
  intros Hid Hsx Hsy Hrad Hfuel.
  unfold Client.BombExploded_apply, Client.calcExplosion, map_index.
  rewrite Hid. cbn [bomb_position Bomb_default].
  set (params := mkServerParams 0 0 0 (Client.explosion_radius c) 0 0 ""
                   0 0 (Client.size_x c) (Client.size_y c)).
  set (state := GameManager.mkGameState ∅ (Client.blocks c) ∅ ∅ 0).
  rewrite (client_calcExplosion_arms params state) by done.
  rewrite calcExplosion_arms_acc.
  pose proof (calcExplosion_cross params fuel Position_default state) as Hx.
  unfold GameManager.calcExplosion in Hx. rewrite Hx; clear Hx; simpl;
    [|lia|lia|lia|apply on_board_spec; simpl; lia|done].
  rewrite client_fold_blocks_destroyed, client_fold_robots_destroyed. simpl.
  eexists. split; [done|]. simpl.
  repeat split; try done.
  - intros p. apply fold_delete_lookup.
  - rewrite delete_insert_eq. by apply delete_id.
  - apply lookup_delete_eq.
Qed.

(** C10. The claim has the event applied for every client state. The
    client's arm loop has the same 16-bit counter as the server's: with
    [explosion_radius = 65535] (a value [Hello] can carry) and no block on
    the board, applying [BombExploded] for an unknown bomb never comes
    back, whatever the iteration budget. *)
Theorem client_BombExploded_apply_radius_max_diverges
    fuel id robots_destroyed blocks_destroyed c :
  Client.bombs c !! id = None →
  Client.explosion_radius c = UINT16_MAX →
  Client.blocks c = ∅ →
  Client.BombExploded_apply fuel id robots_destroyed blocks_destroyed c
  = None.
Proof.
  intros Hid Hrad Hblocks.
  unfold Client.BombExploded_apply, Client.calcExplosion, map_index.
  rewrite Hid. unfold arm_deltas. simpl.
  by rewrite client_calcExplosion_arm_radius_max.
Qed.

Lemma client_BombExploded_apply_radius_max_diverges_witness :
  Client.BombExploded_apply 1000 3 [0] [] Scenario.widest_view = None.
Proof.
  apply client_BombExploded_apply_radius_max_diverges; reflexivity.
Defined.

(** ** The shared server state *)
Section server_facts.
Variable params : ServerParams.

Lemma broadcast_history message s :
  Server.message_history (Server.broadcast message s)
  = Server.message_history s ++ [message].
Proof. done. Qed.

(** While a game is on, only [closeTurn] touches the history. *)
Lemma call_in_game c s s' :
  Server.call params c s = Some s' →
  Server.is_lobby s = false →
  Server.message_history s'
  = Server.message_history s ++ Server.turn_frames [c]
  ∧ Server.is_lobby s' = false.
Proof.
  intros Hcall Hgame. destruct c; simpl in Hcall.
  - injection Hcall as <-. simpl. by rewrite app_nil_r.
  - unfold Server.createMessageQueue in Hcall.
    destruct (Server.client_message_queues s !! client_id); [done|].
    injection Hcall as <-. simpl. by rewrite app_nil_r.
  - injection Hcall as <-. unfold Server.eraseClient.
    destruct (map_index _ _ _). simpl. by rewrite app_nil_r.
  - injection Hcall as <-. simpl. by rewrite app_nil_r.
  - injection Hcall as <-. unfold Server.collectLastMessagesFromClients.
    destruct (foldl _ _ _). simpl. by rewrite app_nil_r.
  - injection Hcall as <-. unfold Server.tryAcceptPlayer.
    rewrite Hgame. simpl. by rewrite app_nil_r.
  - unfold Server.writerPop in Hcall.
    destruct (Server.client_message_queues s !! client_id) as [q|]; [|done].
    destruct (Server.queue_pop q) as [[m q'|]|]; try done.
    injection Hcall as <-. simpl. by rewrite app_nil_r.
  - injection Hcall as <-. unfold Server.writerClose.
    destruct (Server.client_message_queues s !! client_id); simpl;
      by rewrite app_nil_r.
  - injection Hcall as <-. done.
Qed.

Lemma calls_in_game cs s s' :
  Server.calls params cs s = Some s' →
  Server.is_lobby s = false →
  Server.message_history s'
  = Server.message_history s ++ Server.turn_frames cs
  ∧ Server.is_lobby s' = false.
Proof.
  revert s. induction cs as [|c cs IH]; intros s Hcalls Hgame.
  - injection Hcalls as <-. simpl. by rewrite app_nil_r.
  - cbn [Server.calls] in Hcalls.
    destruct (Server.call params c s) as [s1|] eqn:Hc; [|done].
    destruct (call_in_game _ _ _ Hc Hgame) as [Hh1 Hg1].
    destruct (IH _ Hcalls Hg1) as [Hh Hg]. split; [|done].
    rewrite Hh, Hh1, <- app_assoc. f_equal.
    by destruct c.
Qed.

(** C1, as the code has it. [startGame] starts the history afresh before it
    broadcasts [GameStarted], so the [AcceptedPlayer] frames of the lobby are
    not replayed. For a client that connects after [startGame] and any calls
    of the game that follow, the queue it is created with holds exactly
    [Hello], then [GameStarted] (with the players admitted in the lobby),
    then the [Turn] frames broadcast so far, in that order; it is open, and
    the next [Turn] frame goes behind them. *)
Theorem late_joiner_queue_is_game_history s cs s' client_id s'' :
  Server.calls params cs (Server.startGame params s) = Some s' →
  Server.createMessageQueue client_id s' = Some s'' →
  Server.client_message_queues s'' !! client_id
  = Some (Server.mkQueue
            (Server.hello params :: GameStarted (Server.players s)
               :: Server.turn_frames cs) true)
  ∧ ∀ turn_id events,
      Server.client_message_queues (Server.closeTurn turn_id events s'')
        !! client_id
      = Some (Server.mkQueue
                (Server.hello params :: GameStarted (Server.players s)
                   :: Server.turn_frames cs ++ [Turn turn_id events]) true).
Proof.
  intros Hcalls Hcreate.
  destruct (calls_in_game _ _ _ Hcalls eq_refl) as [Hh _].
  cbn in Hh.
  unfold Server.createMessageQueue in Hcreate.
  destruct (Server.client_message_queues s' !! client_id); [done|].
  injection Hcreate as <-. cbn. rewrite lookup_insert_eq, Hh.
  split; [done|]. intros turn_id events.
  by rewrite lookup_fmap, lookup_insert_eq.
Qed.

End server_facts.

Lemma late_joiner_queue_is_game_history_witness :
  Server.client_message_queues Scenario.late_joined !! 2
  = Some (Server.mkQueue
            [Server.hello Scenario.solo;
             GameStarted {[0 := Scenario.alice]};
             Turn 0 [PlayerMoved 0 (mkPosition 2 3)]] true)
  ∧ ∀ turn_id events,
      Server.client_message_queues
        (Server.closeTurn turn_id events Scenario.late_joined) !! 2
      = Some (Server.mkQueue
                [Server.hello Scenario.solo;
                 GameStarted {[0 := Scenario.alice]};
                 Turn 0 [PlayerMoved 0 (mkPosition 2 3)];
                 Turn turn_id events] true).
Proof.
  exact (late_joiner_queue_is_game_history Scenario.solo
           Scenario.alice_joined Scenario.turn_0_calls
           Scenario.turn_0_closed 2 Scenario.late_joined
           eq_refl eq_refl).
Defined.

(** C1, as the claim words it, fails: alice is announced by an
    [AcceptedPlayer] frame in the lobby (it is in the history then), the
    game starts and turn 0 is closed; the queue of a client connecting then
    holds [Hello], [GameStarted] and the [Turn], and no [AcceptedPlayer]. *)
Lemma late_joiner_queue_omits_AcceptedPlayer :
  Server.message_history Scenario.alice_joined
  = [Server.hello Scenario.solo; AcceptedPlayer 0 Scenario.alice]
  ∧ Scenario.late_joiner_queue
  = Some [Server.hello Scenario.solo;
          GameStarted {[0 := Scenario.alice]};
          Turn 0 [PlayerMoved 0 (mkPosition 2 3)]]
  ∧ Scenario.late_joiner_queue
    ≠ Some [Server.hello Scenario.solo;
            AcceptedPlayer 0 Scenario.alice;
            GameStarted {[0 := Scenario.alice]};
            Turn 0 [PlayerMoved 0 (mkPosition 2 3)]].
Proof.
  assert (Scenario.late_joiner_queue
          = Some [Server.hello Scenario.solo;
                  GameStarted {[0 := Scenario.alice]};
                  Turn 0 [PlayerMoved 0 (mkPosition 2 3)]]) as ->
    by reflexivity.
  split; [reflexivity|]. split; [done|]. intros H. discriminate H.
Qed.

(** ** Clients that were never admitted *)

Lemma map_keys_singleton {V} (k : Z) (v : V) :
  map_keys ({[k := v]} : gmap Z V) = [k].
Proof. unfold map_keys. by rewrite dom_singleton_L, elements_singleton. Qed.

(** C3. The claim keeps the intent of a client that is no player out of the
    snapshot. [collectLastMessagesFromClients] looks the client up with
    [player_ids[client_id]], which answers [PlayerId{0}] for a client it does
    not know: the pending intent of a client that was never admitted is
    handed to the game manager as the intent of player 0 (and the client is
    entered in [player_ids] as player 0). *)
Theorem collect_gives_spectator_intent_to_player_0 s client_id message :
  Server.player_ids s !! client_id = None →
  Server.last_messages_from_clients s = {[client_id := message]} →
  fst (Server.collectLastMessagesFromClients s) = {[0 := message]}
  ∧ Server.player_ids (snd (Server.collectLastMessagesFromClients s))
    = <[client_id := 0]> (Server.player_ids s).
Proof.
  intros Hid Hlast. unfold Server.collectLastMessagesFromClients.
  rewrite Hlast, map_keys_singleton. cbn [foldl].
  unfold Server.collect_step, map_index. cbn [fst snd].
  rewrite lookup_singleton_eq, Hid. done.
Qed.

Lemma collect_gives_spectator_intent_to_player_0_witness :
  fst (Server.collectLastMessagesFromClients Scenario.spectator_bombs)
  = {[0 := PlaceBomb]}
  ∧ Server.player_ids
      (snd (Server.collectLastMessagesFromClients Scenario.spectator_bombs))
    = <[1 := 0]> (Server.player_ids Scenario.spectator_bombs).
Proof.
  apply collect_gives_spectator_intent_to_player_0; reflexivity.
Defined.

(** In the session of the witness, client 1 only watches; its [PlaceBomb]
    makes the game manager place a bomb for player 0 in turn 1. *)
Example spectator_bomb_is_placed_for_player_0 :
  Server.player_ids Scenario.spectator_bombs = {[0 := 0]}
  ∧ GameManager.run_turns
      (GameManager.game Scenario.solo 10 10 {[0 := Scenario.alice]}
         [fst (Server.collectLastMessagesFromClients
                 Scenario.spectator_bombs)]
         (minstd_seed (seed Scenario.solo)))
    = [(0, [PlayerMoved 0 (mkPosition 2 3)]);
       (1, [BombPlaced 0 (mkPosition 2 3)]);
       (2, []);
       (3, [BombExploded 0 [0] []; PlayerMoved 0 (mkPosition 1 3)])].
Proof. split; reflexivity. Qed.

(** C5. The claim leaves the players table alone when a client that was
    never admitted is erased. [eraseClient] runs
    [players.erase(player_ids[client_id])], and [player_ids[client_id]] is
    [PlayerId{0}] for such a client: player 0 is removed from the players
    table ([player_ids] itself ends up as it was). *)
Theorem eraseClient_of_spectator_erases_player_0 s client_id :
  Server.player_ids s !! client_id = None →
  Server.players (Server.eraseClient client_id s)
  = delete 0 (Server.players s)
  ∧ Server.player_ids (Server.eraseClient client_id s) = Server.player_ids s.
Proof.
  intros Hid. unfold Server.eraseClient, map_index. rewrite Hid. cbn.
  split; [done|]. rewrite delete_insert_eq. by apply delete_id.
Qed.

Lemma eraseClient_of_spectator_erases_player_0_witness :
  Server.players (Server.eraseClient 1 Scenario.two_clients)
  = delete 0 (Server.players Scenario.two_clients)
  ∧ Server.player_ids (Server.eraseClient 1 Scenario.two_clients)
    = Server.player_ids Scenario.two_clients.
Proof.
  apply eraseClient_of_spectator_erases_player_0; reflexivity.
Defined.

(** In the lobby of the witness alice is player 0 and client 1 has not
    joined; when client 1 disconnects, alice is gone from the players table
    while her client is still mapped to player 0. *)
Example eraseClient_spectator_drops_alice :
  Server.players Scenario.two_clients = {[0 := Scenario.alice]}
  ∧ Server.player_ids Scenario.two_clients = {[0 := 0]}
  ∧ Server.players (Server.eraseClient 1 Scenario.two_clients) = ∅
  ∧ Server.player_ids (Server.eraseClient 1 Scenario.two_clients)
    = {[0 := 0]}.
Proof. repeat split; reflexivity. Qed.

(** ** The game manager *)

Lemma set_player_pos_id state :
  GameManager.set_player_pos (GameManager.player_pos state) state = state.
Proof. by destruct state. Qed.

(** C2. The claim wants an entry equal to 0 for every admitted player after
    [resetScores]. The loop clears the table before each assignment, so only
    the assignment for the last player visited survives: every other player
    is left without an entry. *)
Theorem resetScores_keeps_last_player_only players state ids last id :
  map_keys players = ids ++ [last] →
  id ≠ last →
  GameManager.scores (GameManager.resetScores players state) !! id = None
  ∧ GameManager.scores (GameManager.resetScores players state)
    = {[last := 0]}.
Proof.
  intros Hkeys Hid. unfold GameManager.resetScores.
  rewrite Hkeys, foldl_app. cbn. rewrite insert_empty.
  split; [|done]. by apply lookup_singleton_ne.
Qed.

Lemma resetScores_keeps_last_player_only_witness :
  GameManager.scores
    (GameManager.resetScores {[0 := Scenario.alice; 1 := Scenario.bob]}
       GameManager.GameState_init) !! 0 = None
  ∧ GameManager.scores
      (GameManager.resetScores {[0 := Scenario.alice; 1 := Scenario.bob]}
         GameManager.GameState_init)
    = {[1 := 0]}.
Proof.
  apply (resetScores_keeps_last_player_only _ _ [0]); [reflexivity|lia].
Defined.

(** With two players and nobody destroyed, the scores sent at the end of the
    game have no entry for player 0. *)
Example two_player_game_ends_without_score_of_player_0 :
  GameManager.run_progress
    (GameManager.game Scenario.duel 10 10
       {[0 := Scenario.alice; 1 := Scenario.bob]} []
       (minstd_seed (seed Scenario.duel)))
  = GameManager.Ended {[1 := 0]}.
Proof. reflexivity. Qed.

(** C8. A surviving player whose intent is [Move]: the target is the
    position shifted by the delta of the direction (Up (0, +1),
    Right (+1, 0), Down (0, -1), Left (-1, 0)); if it is on the board and
    holds no block, the player is moved there and one [PlayerMoved] is
    appended; otherwise state and events stay as they were. The board is at
    most 65535 wide and high, as its 16-bit sizes have it. *)
Theorem move_intent_moves_or_is_ignored
    params player_id direction state events pos :
  size_x params ≤ 65535 → size_y params ≤ 65535 →
  GameManager.player_pos state !! player_id = Some pos →
  let '(dx, dy) :=
    match direction with
    | UP => (0, 1) | RIGHT => (1, 0) | DOWN => (0, -1) | LEFT => (-1, 0)
    end in
  let target := mkPosition (pos_x pos + dx) (pos_y pos + dy) in
  GameManager.interpretClientMessage params player_id (Move direction)
    state events
  = if on_board (size_x params) (size_y params) (pos_x target) (pos_y target)
       && bool_decide (target ∉ GameManager.blocks state)
    then (GameManager.set_player_pos
            (<[player_id := target]> (GameManager.player_pos state)) state,
          events ++ [PlayerMoved player_id target])
    else (state, events).
Proof.
  intros Hsx Hsy Hpos.
  assert (∀ dx dy, getDelta direction = (dx, dy) →
    let target := mkPosition (pos_x pos + dx) (pos_y pos + dy) in
    GameManager.interpretClientMessage params player_id (Move direction)
      state events
    = if on_board (size_x params) (size_y params)
           (pos_x target) (pos_y target)
         && bool_decide (target ∉ GameManager.blocks state)
      then (GameManager.set_player_pos
              (<[player_id := target]> (GameManager.player_pos state)) state,
            events ++ [PlayerMoved player_id target])
      else (state, events)) as Hgen.
  { intros dx dy Hdelta. cbn zeta.
    unfold GameManager.interpretClientMessage, GameManager.interpret_Move,
      map_index.
    rewrite Hpos, Hdelta, set_player_pos_id. cbn [pos_x pos_y].
    destruct (on_board _ _ _ _) eqn:Hon; [|done].
    apply on_board_spec in Hon. rewrite !wrap16_small by lia.
    unfold GameManager.movePlayer. cbn [pos_x pos_y andb].
    destruct (Z.leb_spec (size_x params) (pos_x pos + dx)); [lia|].
    destruct (Z.leb_spec (size_y params) (pos_y pos + dy)); [lia|].
    cbn [orb]. destruct (decide _) as [Hin|Hin].
    - by rewrite bool_decide_eq_false_2 by (by intros ?).
    - by rewrite bool_decide_eq_true_2. }
  destruct direction; by apply Hgen.
Qed.

Lemma move_intent_moves_or_is_ignored_witness :
  GameManager.interpretClientMessage Scenario.duel 0 (Move UP)
    Scenario.cornered []
  = (GameManager.set_player_pos {[0 := mkPosition 0 1]} Scenario.cornered,
     [PlayerMoved 0 (mkPosition 0 1)]).
Proof.
  exact (move_intent_moves_or_is_ignored Scenario.duel 0 UP
           Scenario.cornered [] (mkPosition 0 0)
           ltac:(simpl; lia) ltac:(simpl; lia) eq_refl).
Defined.

(** From the corner, [Move{Left}] leaves the board and is dropped. *)
Example move_left_from_corner_is_ignored :
  GameManager.interpretClientMessage Scenario.duel 0 (Move LEFT)
    Scenario.cornered []
  = (Scenario.cornered, []).
Proof. reflexivity. Qed.

(** ** The game as a function of the seed *)
Section determinism.
Variable params : ServerParams.

Lemma map_keys_dom {V W} (m1 : gmap Z V) (m2 : gmap Z W) :
  dom m1 = dom m2 → map_keys m1 = map_keys m2.
Proof. unfold map_keys. by intros ->. Qed.

Lemma turns_no_intents fuel efuel players intents turn state random :
  no_intents intents →
  GameManager.turns params fuel efuel players intents turn state random
  = GameManager.turns params fuel efuel players [] turn state random.
Proof.
  revert intents turn state random.
  induction fuel as [|fuel IH]; intros intents turn state random Hno; [done|].
  cbn [GameManager.turns].
  destruct (turn <=? game_length params); [|done].
  assert (hd ∅ intents = ∅) as -> by (by destruct Hno).
  cbn [hd tl].
  destruct (GameManager.updateBombs _ _ _ _) as [[state1 events1]|]; [|done].
  destruct (GameManager.interpretAllClientMessages _ _ _ _)
    as [state2 events2].
  destruct (GameManager.placeMissingRobots _ _ _ _ _)
    as [[state3 events3] random3].
  rewrite (IH (tl intents)); [done|].
  destruct Hno; [constructor|done].
Qed.

Lemma turns_players_dom fuel efuel (players1 players2 : gmap Z Player)
    intents turn state random :
  dom players1 = dom players2 →
  GameManager.turns params fuel efuel players1 intents turn state random
  = GameManager.turns params fuel efuel players2 intents turn state random.
Proof.
  intros Hdom. revert intents turn state random.
  induction fuel as [|fuel IH]; intros intents turn state random; [done|].
  cbn [GameManager.turns].
  destruct (turn <=? game_length params); [|done].
  destruct (GameManager.updateBombs _ _ _ _) as [[state1 events1]|]; [|done].
  destruct (GameManager.interpretAllClientMessages _ _ _ _)
    as [state2 events2].
  unfold GameManager.placeMissingRobots.
  rewrite (map_keys_dom players1 players2 Hdom).
  destruct (foldl _ _ _) as [[state3 events3] random3].
  by rewrite IH.
Qed.

(** One game depends on the players through their ids only, and an intent
    stream in which nothing arrives is as good as any other such stream. *)
Lemma game_deterministic fuel efuel (players1 players2 : gmap Z Player)
    intents1 intents2 random :
  dom players1 = dom players2 →
  no_intents intents1 → no_intents intents2 →
  GameManager.game params fuel efuel players1 intents1 random
  = GameManager.game params fuel efuel players2 intents2 random.
Proof.
  intros Hdom Hno1 Hno2.
  unfold GameManager.game, GameManager.initializeGame,
    GameManager.resetScores, GameManager.placeMissingRobots.
  rewrite (map_keys_dom players1 players2 Hdom).
  destruct (foldl (GameManager.placeMissingRobots_step params) _ _)
    as [[state2 events2] random2].
  destruct (GameManager.placeInitialBlocks _ _ _ _)
    as [[state0 events0] random0].
  by rewrite (turns_no_intents _ _ _ intents1), (turns_no_intents _ _ _ intents2),
    (turns_players_dom _ _ players1 players2).
Qed.

Lemma run_from_deterministic fuel efuel sessions1 sessions2 random :
  Forall2 (λ a b, dom (fst a) = dom (fst b)
                  ∧ no_intents (snd a) ∧ no_intents (snd b))
    sessions1 sessions2 →
  GameManager.run_from params fuel efuel sessions1 random
  = GameManager.run_from params fuel efuel sessions2 random.
Proof.
  intros Hsessions. revert random.
  induction Hsessions as [|[players1 intents1] [players2 intents2]
                            sessions1 sessions2 (Hdom & Hno1 & Hno2) _ IH];
    intros random; [done|].
  cbn [GameManager.run_from]. cbn [fst snd] in *.
  rewrite (game_deterministic _ _ players1 players2 intents1 intents2)
    by done.
  destruct (GameManager.run_progress _); [|done].
  by rewrite IH.
Qed.

(** C9. Two runs of the game loop on the same parameters (the seed among
    them), game after game with the same player ids admitted (names and
    addresses may differ) and no intent ever arriving, broadcast the same
    sequence of [Turn] payloads: same turn numbers, same events, in the
    same order. *)
Theorem run_is_a_function_of_the_seed fuel efuel sessions1 sessions2 :
  Forall2 (λ a b, dom (fst a) = dom (fst b)
                  ∧ no_intents (snd a) ∧ no_intents (snd b))
    sessions1 sessions2 →
  GameManager.run params fuel efuel sessions1
  = GameManager.run params fuel efuel sessions2.
Proof. apply run_from_deterministic. Qed.

End determinism.

Lemma run_is_a_function_of_the_seed_witness :
  GameManager.run Scenario.solo 10 10
    [({[0 := Scenario.alice]}, []); ({[0 := Scenario.bob]}, [∅])]
  = GameManager.run Scenario.solo 10 10
      [({[0 := Scenario.bob]}, [∅; ∅]); ({[0 := Scenario.alice]}, [])].
Proof.
  apply run_is_a_function_of_the_seed.
  repeat constructor; reflexivity.
Defined.

(** The first scenario of the specification: one player, seed 42, a 4 x 4
    board, two initial blocks, three turns and no intents. Turn 0 places the
    robot and the blocks, the turns after it are empty; a second game on the
    same engine differs from the first. *)
Example seed_42_run :
  GameManager.run (mkServerParams 2 1 100 1 2 3 "robots" 2022 42 4 4) 10 10
    [({[0 := Scenario.alice]}, []); ({[0 := Scenario.alice]}, [])]
  = [(0, [PlayerMoved 0 (mkPosition 2 3); BlockPlaced (mkPosition 1 3);
          BlockPlaced (mkPosition 2 1)]);
     (1, []); (2, []); (3, []);
     (0, [PlayerMoved 0 (mkPosition 3 2); BlockPlaced (mkPosition 1 1);
          BlockPlaced (mkPosition 1 1)]);
     (1, []); (2, []); (3, [])].
Proof. reflexivity. Qed.

(** ** Scores and destroyed robots *)

Lemma ids_toList_set (s : gset Z) : list_to_set (ids_toList s) = s.
Proof.
  unfold ids_toList. rewrite merge_sort_Permutation.
  apply list_to_set_elements_L.
Qed.

Lemma ids_toList_NoDup (s : gset Z) : NoDup (ids_toList s).
Proof.
  unfold ids_toList. rewrite merge_sort_Permutation. apply NoDup_elements.
Qed.

Lemma ids_toList_length (s : gset Z) : length (ids_toList s) = size s.
Proof. unfold ids_toList. by rewrite merge_sort_Permutation. Qed.

Lemma robots_destroyed_in_snoc events e :
  robots_destroyed_in (events ++ [e])
  = robots_destroyed_in events ∪ list_to_set (robots_destroyed_of e).
Proof.
  unfold robots_destroyed_in.
  by rewrite bind_app, bind_singleton, list_to_set_app_L.
Qed.

Lemma robots_destroyed_in_snoc_other events e :
  robots_destroyed_of e = [] →
  robots_destroyed_in (events ++ [e]) = robots_destroyed_in events.
Proof. intros He. rewrite robots_destroyed_in_snoc, He. set_solver. Qed.

Lemma total_score_empty : total_score ∅ = 0.
Proof. apply map_fold_empty. Qed.

Lemma total_score_insert_None (m : gmap Z Z) k v :
  m !! k = None → total_score (<[k := v]> m) = v + total_score m.
Proof.
  intros Hk. unfold total_score.
  rewrite map_fold_insert_L; [done| |done]. intros. lia.
Qed.

Lemma total_score_insert (m : gmap Z Z) k v :
  total_score (<[k := v]> m) = total_score m - default 0 (m !! k) + v.
Proof.
  destruct (m !! k) as [v0|] eqn:Hk; simpl.
  - rewrite <- (insert_delete_eq m).
    rewrite <- (insert_delete_id m k v0) at 2 by done.
    rewrite !total_score_insert_None by apply lookup_delete_eq. lia.
  - rewrite total_score_insert_None by done. lia.
Qed.

Section scores.
Variable params : ServerParams.

Lemma quiet_refl se : quiet se se.
Proof. done. Qed.

Lemma quiet_trans se1 se2 se3 : quiet se1 se2 → quiet se2 se3 → quiet se1 se3.
Proof. intros [? ?] [? ?]. split; congruence. Qed.

Lemma placeBomb_quiet pos state events :
  quiet (state, events) (GameManager.placeBomb params pos state events).
Proof.
  split; [done|]. by apply robots_destroyed_in_snoc_other.
Qed.

Lemma placeBlock_quiet pos state events :
  quiet (state, events) (GameManager.placeBlock pos state events).
Proof.
  unfold GameManager.placeBlock. destruct (decide _); [done|].
  split; [done|]. by apply robots_destroyed_in_snoc_other.
Qed.

Lemma movePlayer_quiet p_id pos state events :
  quiet (state, events) (GameManager.movePlayer params p_id pos state events).
Proof.
  unfold GameManager.movePlayer. destruct (_ || _); [done|].
  destruct (decide _); [done|].
  split; [done|]. by apply robots_destroyed_in_snoc_other.
Qed.

Lemma interpretClientMessage_quiet player_id message state events :
  quiet (state, events)
    (GameManager.interpretClientMessage params player_id message state
       events).
Proof.
  unfold GameManager.interpretClientMessage.
  destruct (GameManager.player_pos state !! player_id); [|done].
  destruct message as [name| | |direction]; [done|..].
  - unfold GameManager.interpret_PlaceBomb.
    destruct (map_index _ _ _) as [pos player_pos1].
    eapply quiet_trans; [|apply placeBomb_quiet]. done.
  - unfold GameManager.interpret_PlaceBlock.
    destruct (map_index _ _ _) as [pos player_pos1].
    destruct (decide _); [done|].
    destruct (map_index _ _ _) as [pos' player_pos2].
    eapply quiet_trans; [|apply placeBlock_quiet]. done.
  - unfold GameManager.interpret_Move.
    destruct (map_index _ _ _) as [pos player_pos1].
    destruct (getDelta direction) as [delta_x delta_y].
    destruct (on_board _ _ _ _); [|done].
    eapply quiet_trans; [|apply movePlayer_quiet]. done.
Qed.

Lemma interpretAllClientMessages_quiet messages state events :
  quiet (state, events)
    (GameManager.interpretAllClientMessages params messages state events).
Proof.
  unfold GameManager.interpretAllClientMessages.
  generalize (map_keys messages) as ids. generalize (state, events) as se.
  intros se ids. revert se.
  induction ids as [|id ids IH]; intros se; [done|]. cbn [foldl].
  eapply quiet_trans; [|apply IH].
  destruct (messages !! id); [|done].
  destruct se as [state' events']. apply interpretClientMessage_quiet.
Qed.

Lemma placeMissingRobots_step_quiet acc player_id :
  quiet (fst acc) (fst (GameManager.placeMissingRobots_step params acc
                          player_id)).
Proof.
  destruct acc as [[state events] random].
  unfold GameManager.placeMissingRobots_step.
  destruct (GameManager.player_pos state !! player_id); [done|].
  destruct (GameManager.random_position params random) as [pos random'].
  split; [done|]. by apply robots_destroyed_in_snoc_other.
Qed.

Lemma placeMissingRobots_quiet players state events random :
  quiet (state, events)
    (fst (GameManager.placeMissingRobots params players state events random)).
Proof.
  unfold GameManager.placeMissingRobots.
  change (state, events) with (fst (state, events, random)) at 1.
  generalize (map_keys players) as ids.
  generalize (state, events, random) as acc.
  intros acc ids. revert acc.
  induction ids as [|id ids IH]; intros acc; [done|]. cbn [foldl].
  eapply quiet_trans; [apply placeMissingRobots_step_quiet|apply IH].
Qed.

Lemma placeInitialBlocks_loop_quiet n state events random :
  quiet (state, events)
    (fst (GameManager.placeInitialBlocks_loop params n state events random)).
Proof.
  revert state events random.
  induction n as [|n IH]; intros state events random; [done|].
  cbn [GameManager.placeInitialBlocks_loop].
  destruct (GameManager.random_position params random) as [pos random'].
  eapply quiet_trans; [|apply IH].
  split; [done|]. by apply robots_destroyed_in_snoc_other.
Qed.

(** The scores [resetScores] leaves are all zero. *)
Lemma resetScores_zero players state :
  GameManager.scores state = ∅ →
  total_score (GameManager.scores (GameManager.resetScores players state))
  = 0
  ∧ map_Forall (λ _ score, 0 ≤ score ≤ 0)
      (GameManager.scores (GameManager.resetScores players state)).
Proof.
  intros Hempty. unfold GameManager.resetScores.
  destruct (map_keys players) as [|id ids _] using rev_ind; cbn [foldl].
  - rewrite Hempty. split; [apply total_score_empty|apply map_Forall_empty].
  - rewrite foldl_app. cbn. split.
    + rewrite total_score_insert_None, total_score_empty by done. lia.
    + apply map_Forall_insert_2; [lia|apply map_Forall_empty].
Qed.

(** The loop over the bombs leaves the scores alone, and the robots it
    collects are the ones its [BombExploded] events name. *)
Lemma updateBombs_step_inv efuel a a' bomb_id :
  GameManager.updateBombs_step params efuel (Some a) bomb_id = Some a' →
  GameManager.scores (GameManager.ex_state a')
  = GameManager.scores (GameManager.ex_state a)
  ∧ (GameManager.robots_destroyed_total a
     = robots_destroyed_in (GameManager.ex_events a) →
     GameManager.robots_destroyed_total a'
     = robots_destroyed_in (GameManager.ex_events a')).
Proof.
  unfold GameManager.updateBombs_step.
  destruct (GameManager.bombs (GameManager.ex_state a) !! bomb_id)
    as [bomb|]; [|by intros [= <-]].
  destruct (1 <? bomb_timer_left bomb); [by intros [= <-]|].
  destruct (GameManager.calcExplosionResult _ _ _ _)
    as [[robots_destroyed blocks_destroyed]|]; [|done].
  intros [= <-].
  cbn [GameManager.ex_state GameManager.ex_events
       GameManager.robots_destroyed_total].
  split; [done|]. intros ->.
  rewrite robots_destroyed_in_snoc. cbn [robots_destroyed_of].
  rewrite ids_toList_set. set_solver.
Qed.

Lemma updateBombs_fold_None efuel ids :
  foldl (GameManager.updateBombs_step params efuel) None ids = None.
Proof. by induction ids. Qed.

Lemma updateBombs_fold_inv efuel ids a a' :
  foldl (GameManager.updateBombs_step params efuel) (Some a) ids = Some a' →
  GameManager.scores (GameManager.ex_state a')
  = GameManager.scores (GameManager.ex_state a)
  ∧ (GameManager.robots_destroyed_total a
     = robots_destroyed_in (GameManager.ex_events a) →
     GameManager.robots_destroyed_total a'
     = robots_destroyed_in (GameManager.ex_events a')).
Proof.
  revert a. induction ids as [|id ids IH]; intros a; cbn [foldl].
  { by intros [= <-]. }
  destruct (GameManager.updateBombs_step params efuel (Some a) id)
    as [a1|] eqn:Hstep; [|by rewrite updateBombs_fold_None].
  intros Hfold. destruct (updateBombs_step_inv _ _ _ _ Hstep) as [Hs1 Ht1].
  destruct (IH _ Hfold) as [Hs Ht]. split; [congruence|auto].
Qed.

Lemma destroy_robot_scores state id :
  GameManager.scores (GameManager.destroy_robot state id)
  = <[id := wrap32 (default 0 (GameManager.scores state !! id) + 1)]>
      (GameManager.scores state).
Proof.
  unfold GameManager.destroy_robot, map_index, Score_default.
  destruct (GameManager.scores state !! id); cbn; [done|].
  by rewrite insert_insert_eq.
Qed.

(** One increment for every robot of the list, none of them wrapping while
    the scores stay below 2^32 - 1. *)
Lemma destroy_robots_scores ids state k :
  NoDup ids → 0 ≤ k → k + 1 < 2 ^ 32 →
  map_Forall (λ _ score, 0 ≤ score ≤ k + 1) (GameManager.scores state) →
  (∀ id score, id ∈ ids → GameManager.scores state !! id = Some score →
               score ≤ k) →
  total_score (GameManager.scores (foldl GameManager.destroy_robot state ids))
  = total_score (GameManager.scores state) + Z.of_nat (length ids)
  ∧ map_Forall (λ _ score, 0 ≤ score ≤ k + 1)
      (GameManager.scores (foldl GameManager.destroy_robot state ids)).
Proof.
  intros Hnodup Hk Hk32. revert state.
  induction Hnodup as [|id ids Hid _ IH]; intros state Hall Hids;
    cbn [foldl length].
  { split; [lia|done]. }
  assert (0 ≤ default 0 (GameManager.scores state !! id) ≤ k) as Hold.
  { destruct (GameManager.scores state !! id) as [score|] eqn:Hscore; cbn.
    - pose proof (map_Forall_lookup_1 _ _ _ _ Hall Hscore) as Hb.
      cbn in Hb. split; [lia|]. eapply Hids; [left|done].
    - lia. }
  assert (wrap32 (default 0 (GameManager.scores state !! id) + 1)
          = default 0 (GameManager.scores state !! id) + 1) as Hwrap.
  { unfold wrap32. apply Z.mod_small. lia. }
  destruct (IH (GameManager.destroy_robot state id)) as [Hsum Hall'].
  - rewrite destroy_robot_scores, Hwrap.
    apply map_Forall_insert_2; [lia|done].
  - intros id' score Hid'. rewrite destroy_robot_scores.
    rewrite lookup_insert_ne by (intros ->; done).
    apply Hids. by right.
  - split; [|done]. rewrite Hsum, destroy_robot_scores, Hwrap.
    rewrite total_score_insert. lia.
Qed.

Lemma erase_blocks_scores (positions : list Position) state :
  GameManager.scores
    (foldl (λ s pos,
              GameManager.set_blocks (GameManager.blocks s ∖ {[pos]}) s)
       state positions)
  = GameManager.scores state.
Proof.
  revert state. induction positions as [|pos positions IH]; intros state;
    [done|]. cbn [foldl]. by rewrite IH.
Qed.

Lemma erase_bombs_scores (ids : list Z) state :
  GameManager.scores
    (foldl (λ s id,
              GameManager.set_bombs (delete id (GameManager.bombs s)) s)
       state ids)
  = GameManager.scores state.
Proof.
  revert state. induction ids as [|id ids IH]; intros state; [done|].
  cbn [foldl]. by rewrite IH.
Qed.

(** One call of [updateBombs] on a fresh event list: the scores grow by the
    number of different robots its [BombExploded] events name. *)
Lemma updateBombs_scores efuel state state' events' k :
  GameManager.updateBombs params efuel state [] = Some (state', events') →
  0 ≤ k → k + 1 < 2 ^ 32 →
  map_Forall (λ _ score, 0 ≤ score ≤ k) (GameManager.scores state) →
  total_score (GameManager.scores state')
  = total_score (GameManager.scores state) + robots_destroyed_distinct events'
  ∧ map_Forall (λ _ score, 0 ≤ score ≤ k + 1) (GameManager.scores state').
Proof.
  unfold GameManager.updateBombs.
  destruct (foldl _ _ _) as [a|] eqn:Hfold; [|done].
  intros [= <- <-] Hk Hk32 Hall.
  destruct (updateBombs_fold_inv _ _ _ _ Hfold) as [Hscores Htotal].
  cbn in Hscores, Htotal. specialize (Htotal eq_refl).
  rewrite erase_bombs_scores, erase_blocks_scores.
  destruct (destroy_robots_scores
              (ids_toList (GameManager.robots_destroyed_total a))
              (GameManager.ex_state a) k) as [Hsum Hall'];
    [apply ids_toList_NoDup|done|done|..].
  - rewrite Hscores. eapply map_Forall_impl; [done|]. cbn. intros. lia.
  - intros id score _ Hscore. rewrite Hscores in Hscore.
    pose proof (map_Forall_lookup_1 _ _ _ _ Hall Hscore) as Hb.
    cbn in Hb. lia.
  - split; [|done].
    rewrite Hsum, Hscores, ids_toList_length, Htotal. done.
Qed.

Lemma turns_scores fuel efuel players intents turn state random k :
  0 ≤ k → k + Z.of_nat fuel < 2 ^ 32 →
  map_Forall (λ _ score, 0 ≤ score ≤ k) (GameManager.scores state) →
  total_score
    (GameManager.scores
       (GameManager.run_state
          (GameManager.turns params fuel efuel players intents turn state
             random)))
  = total_score (GameManager.scores state)
    + sum_over_turns robots_destroyed_distinct
        (GameManager.run_turns
           (GameManager.turns params fuel efuel players intents turn state
              random)).
Proof.
  revert intents turn state random k.
  induction fuel as [|fuel IH]; intros intents turn state random k Hk Hfuel
    Hall; cbn [GameManager.turns].
  { cbn. lia. }
  destruct (turn <=? game_length params); [|cbn; lia].
  destruct (GameManager.updateBombs params efuel state [])
    as [[state1 events1]|] eqn:Hbombs; [|cbn; lia].
  destruct (updateBombs_scores _ _ _ _ k Hbombs) as [Hsum Hall1];
    [lia|lia|done|].
  pose proof (interpretAllClientMessages_quiet (hd ∅ intents) state1 events1)
    as [Hs2 He2].
  destruct (GameManager.interpretAllClientMessages _ _ _ _)
    as [state2 events2].
  pose proof (placeMissingRobots_quiet players state2 events2 random)
    as [Hs3 He3].
  destruct (GameManager.placeMissingRobots _ _ _ _ _)
    as [[state3 events3] random3].
  cbn [fst snd] in *.
  cbn [GameManager.run_state GameManager.run_turns sum_over_turns foldr snd].
  fold (sum_over_turns robots_destroyed_distinct
          (GameManager.run_turns
             (GameManager.turns params fuel efuel players (tl intents)
                (wrap16 (turn + 1)) state3 random3))).
  rewrite (IH _ _ _ _ (k + 1)) by (try lia; by rewrite Hs3, Hs2).
  rewrite Hs3, Hs2, Hsum. unfold robots_destroyed_distinct.
  rewrite He3, He2. lia.
Qed.

Lemma initializeGame_scores players random :
  total_score
    (GameManager.scores
       (fst (fst (GameManager.initializeGame params players
                    GameManager.GameState_init random)))) = 0
  ∧ map_Forall (λ _ score, 0 ≤ score ≤ 0)
      (GameManager.scores
         (fst (fst (GameManager.initializeGame params players
                      GameManager.GameState_init random))))
  ∧ robots_destroyed_in
      (snd (fst (GameManager.initializeGame params players
                   GameManager.GameState_init random))) = ∅.
Proof.
  unfold GameManager.initializeGame.
  destruct (resetScores_zero players GameManager.GameState_init eq_refl)
    as [Hsum Hall].
  pose proof (placeMissingRobots_quiet players
                (GameManager.resetScores players GameManager.GameState_init)
                [] random) as [Hs2 He2].
  destruct (GameManager.placeMissingRobots _ _ _ _ _)
    as [[state2 events2] random2].
  pose proof (placeInitialBlocks_loop_quiet
                (Z.to_nat (initial_blocks params)) state2 events2 random2)
    as [Hs0 He0].
  unfold GameManager.placeInitialBlocks.
  destruct (GameManager.placeInitialBlocks_loop _ _ _ _ _)
    as [[state0 events0] random0].
  cbn [fst snd] in *. rewrite Hs0, Hs2, He0, He2. done.
Qed.

End scores.

(** C4, as the code has it. Whatever the intents, as long as fewer than 2^32
    turns have been played (every game that ends has at most 65534): the
    scores add up to the number of robots destroyed turn by turn, where a
    robot counts once in a turn however many [BombExploded] events of that
    turn name it. *)
Theorem scores_count_destroyed_robots_once_per_turn
    params fuel efuel players intents random :
  Z.of_nat fuel < 2 ^ 32 →
  total_score
    (GameManager.scores
       (GameManager.run_state
          (GameManager.game params fuel efuel players intents random)))
  = sum_over_turns robots_destroyed_distinct
      (GameManager.run_turns
         (GameManager.game params fuel efuel players intents random)).
Proof.
  intros Hfuel. unfold GameManager.game.
  destruct (initializeGame_scores params players random)
    as (Hsum & Hall & Hevents).
  destruct (GameManager.initializeGame _ _ _ _)
    as [[state0 initial_events] random0]. cbn [fst snd] in *.
  cbn [GameManager.run_state GameManager.run_turns sum_over_turns foldr snd].
  fold (sum_over_turns robots_destroyed_distinct
          (GameManager.run_turns
             (GameManager.turns params fuel efuel players intents 1 state0
                random0))).
  rewrite (turns_scores params _ _ _ _ _ _ _ 0) by (try lia; done).
  assert (robots_destroyed_distinct initial_events = 0) as ->
    by (unfold robots_destroyed_distinct; by rewrite Hevents, size_empty).
  rewrite Hsum. lia.
Qed.

Lemma scores_count_destroyed_robots_once_per_turn_witness :
  total_score
    (GameManager.scores
       (GameManager.run_state
          (GameManager.game Scenario.one_cell 10 10
             {[0 := Scenario.alice; 1 := Scenario.bob]}
             Scenario.both_place_bombs 1)))
  = sum_over_turns robots_destroyed_distinct
      (GameManager.run_turns
         (GameManager.game Scenario.one_cell 10 10
            {[0 := Scenario.alice; 1 := Scenario.bob]}
            Scenario.both_place_bombs 1)).
Proof.
  apply scores_count_destroyed_robots_once_per_turn. simpl. lia.
Defined.

(** C4, as the claim words it, fails: on a board of one cell both players
    place a bomb in turn 1; in turn 2 both bombs explode and each names both
    robots. The lists hold four entries, the scores add up to two. *)
Lemma scores_differ_from_robots_destroyed_entries :
  GameManager.run_turns
    (GameManager.game Scenario.one_cell 10 10
       {[0 := Scenario.alice; 1 := Scenario.bob]}
       Scenario.both_place_bombs 1)
  = [(0, [PlayerMoved 0 (mkPosition 0 0); PlayerMoved 1 (mkPosition 0 0)]);
     (1, [BombPlaced 0 (mkPosition 0 0); BombPlaced 1 (mkPosition 0 0)]);
     (2, [BombExploded 0 [0; 1] []; BombExploded 1 [0; 1] [];
          PlayerMoved 0 (mkPosition 0 0); PlayerMoved 1 (mkPosition 0 0)])]
  ∧ GameManager.run_progress
      (GameManager.game Scenario.one_cell 10 10
         {[0 := Scenario.alice; 1 := Scenario.bob]}
         Scenario.both_place_bombs 1)
    = GameManager.Ended {[0 := 1; 1 := 1]}
  ∧ total_score
      (GameManager.scores
         (GameManager.run_state
            (GameManager.game Scenario.one_cell 10 10
               {[0 := Scenario.alice; 1 := Scenario.bob]}
               Scenario.both_place_bombs 1)))
    ≠ sum_over_turns robots_destroyed_entries
        (GameManager.run_turns
           (GameManager.game Scenario.one_cell 10 10
              {[0 := Scenario.alice; 1 := Scenario.bob]}
              Scenario.both_place_bombs 1)).
Proof.
  split; [reflexivity|]. split; [reflexivity|].
  vm_compute. discriminate.
Qed.

(** ** Games that end *)
Section ending.
Variable params : ServerParams.
Hypothesis radius_below_max : explosion_radius params < 65535.

Lemma updateBombs_returns efuel state events :
  (Z.to_nat (explosion_radius params + 1) < efuel)%nat →
  is_Some (GameManager.updateBombs params efuel state events).
Proof.
  intros Hefuel. unfold GameManager.updateBombs.
  generalize (GameManager.mkExploding state events ∅ ∅ ∅) as a.
  generalize (map_keys (GameManager.bombs state)) as ids.
  intros ids a.
  assert (is_Some (foldl (GameManager.updateBombs_step params efuel)
                     (Some a) ids)) as [a' ->]; [|done].
  revert a. induction ids as [|id ids IH]; intros a; cbn [foldl]; [done|].
  assert (is_Some (GameManager.updateBombs_step params efuel (Some a) id))
    as [a1 ->]; [|apply IH].
  unfold GameManager.updateBombs_step.
  destruct (GameManager.bombs (GameManager.ex_state a) !! id)
    as [bomb|] eqn:Hbomb; [|done].
  destruct (1 <? bomb_timer_left bomb); [done|].
  unfold GameManager.calcExplosionResult, GameManager.calcExplosion.
  rewrite Hbomb.
  destruct (calcExplosion_arms_return params (GameManager.ex_state a)
              (bomb_position bomb) efuel arm_deltas ∅) as [affected ->];
    done.
Qed.

(** With a game length below 65535 the turn loop runs the turns that are
    left and reaches [endGame] with the scores of the state. *)
Lemma turns_end (n : nat) fuel efuel players intents turn state random :
  game_length params < 65535 →
  (Z.to_nat (explosion_radius params + 1) < efuel)%nat →
  0 ≤ turn →
  n = Z.to_nat (game_length params + 1 - turn) →
  (n < fuel)%nat →
  let g := GameManager.turns params fuel efuel players intents turn state
             random in
  GameManager.run_progress g
  = GameManager.Ended (GameManager.scores (GameManager.run_state g))
  ∧ length (GameManager.run_turns g) = n.
Proof.
  intros Hlen Hefuel. revert fuel intents turn state random.
  induction n as [|n IH]; intros fuel intents turn state random Hturn Hn
    Hfuel; (destruct fuel as [|fuel]; [lia|]); cbn [GameManager.turns].
  - destruct (Z.leb_spec turn (game_length params)); [lia|done].
  - destruct (Z.leb_spec turn (game_length params)); [|lia].
    destruct (updateBombs_returns efuel state [] Hefuel)
      as [[state1 events1] ->].
    destruct (GameManager.interpretAllClientMessages _ _ _ _)
      as [state2 events2].
    destruct (GameManager.placeMissingRobots _ _ _ _ _)
      as [[state3 events3] random3].
    rewrite wrap16_small by lia.
    destruct (IH fuel (tl intents) (turn + 1) state3 random3) as [Hp Hl];
      [lia|lia|lia|].
    cbn zeta in *. cbn. by rewrite Hp, Hl.
Qed.

(** A whole game: turn 0 and [game_length] more turns, then [GameEnded]
    with the scores of the final state. *)
Lemma game_ends fuel efuel players intents random :
  0 ≤ game_length params < 65535 →
  (Z.to_nat (explosion_radius params + 1) < efuel)%nat →
  (Z.to_nat (game_length params) < fuel)%nat →
  let g := GameManager.game params fuel efuel players intents random in
  GameManager.run_progress g
  = GameManager.Ended (GameManager.scores (GameManager.run_state g))
  ∧ length (GameManager.run_turns g)
    = S (Z.to_nat (game_length params)).
Proof.
  intros Hlen Hefuel Hfuel. unfold GameManager.game.
  destruct (GameManager.initializeGame _ _ _ _)
    as [[state0 initial_events] random0].
  destruct (turns_end (Z.to_nat (game_length params)) fuel efuel players
              intents 1 state0 random0) as [Hp Hl];
    [lia|done|lia|lia|done|].
  cbn zeta in *. cbn. by rewrite Hp, Hl.
Qed.

End ending.
